(** * camFusion_Student.cpp: association and time-to-collision estimators

    A shallow embedding of the five routines of [camFusion_Student.cpp]
    ([clusterLidarWithROI], [clusterKptMatchesWithROI], [computeTTCCamera],
    [clustering] / [computeTTCLidar], [matchBoundingBoxes]) and the
    properties of them that the design document states.

    Conventions of the embedding.
    - A C++ [double] is a primitive binary64 float; a C++ [float] is a
      binary64 float holding a binary32 value, with the rounding to binary32
      written out ([fl32]).
    - [int], [long] and [size_t] values are [Z]; the code never relies on
      wrap-around.
    - A [std::vector] is a [list]; an iterator is the [Z] offset from
      [begin()].  Dereferencing an iterator outside [0, size) and unchecked
      indexing outside the vector are undefined behaviour in C++; here they
      stop the computation with [Fault InvalidDeref].  [vector::at] outside
      the vector throws; here it stops with [Fault OutOfRange].
    - OpenCV's and PCL's operations are collaborators of the file: they are
      the fields of the class [Vision], and every general theorem holds for
      any implementation of them. *)

From Stdlib Require Import ZArith QArith List Floats Lia Bool.
From stdpp Require Import base option list sorting gmap.
Import ListNotations.

Local Open Scope Z_scope.
Set Warnings "-inexact-float".

(** ** Outcomes of a run *)

Inductive fault : Type :=
| InvalidDeref   (* iterator or index outside the container: undefined *)
| OutOfRange     (* std::out_of_range thrown by vector::at *)
| BadConversion  (* double -> int conversion of a value int cannot hold *)
| OutOfFuel.     (* the bound on loop iterations of the model was reached *)

Inductive outcome (A : Type) : Type :=
| Ok (a : A)
| Fault (f : fault).

Arguments Ok {A} a.
Arguments Fault {A} f.

#[global] Instance outcome_ret : MRet outcome := fun A a => Ok a.
#[global] Instance outcome_bind : MBind outcome :=
  fun A B k m => match m with Ok a => k a | Fault f => Fault f end.

(** ** Numbers *)

Abbreviation double := float.

(** An integer as a [double] (exact below 2^53). *)
Definition of_int (z : Z) : double :=
  SF2Prim (binary_normalize prec emax z 0 false).

(** Rounding of a [double] to the nearest binary32 value, ties to even:
    the C++ cast [(float) x]. *)
Definition fl32 (x : double) : double :=
  match Prim2SF x with
  | S754_finite s m e =>
      SF2Prim (binary_normalize 24 128 (cond_Zopp s (Zpos m)) e s)
  | _ => x
  end.

(** The integer part of a [double], toward zero; none for NaN and the
    infinities. *)
Definition trunc (x : double) : option Z :=
  match Prim2SF x with
  | S754_zero _ => Some 0
  | S754_finite s m e =>
      let mag := if 0 <=? e then Zpos m * 2 ^ e else Zpos m / 2 ^ (- e) in
      Some (cond_Zopp s mag)
  | _ => None
  end.

Definition INT_MIN : Z := - 2 ^ 31.
Definition INT_MAX : Z := 2 ^ 31 - 1.

(** The implicit C++ conversion of a [double] to [int]: truncation toward
    zero, undefined when the truncated value is not an [int]. *)
Definition to_int (x : double) : outcome Z :=
  match trunc x with
  | Some z => if (INT_MIN <=? z) && (z <=? INT_MAX) then Ok z
              else Fault BadConversion
  | None => Fault BadConversion
  end.

(** [std::numeric_limits<double>::epsilon()] *)
Definition DBL_EPSILON : double := 0x1p-52%float.

(** [fabs] *)
Definition fabs (x : double) : double := PrimFloat.abs x.

(** ** Data structures

    [cv::Point2f], [cv::Point], [cv::Rect], [cv::KeyPoint], [cv::DMatch],
    [cv::Mat] and [pcl::PointXYZ] with the fields the code uses, and the
    structures of dataStructures.h.  The coordinates of a [cv::Point2f] and
    of a [pcl::PointXYZ] are C++ [float]s. *)

Module Point2f.
Record t : Type := mk { x : double; y : double }.
End Point2f.

Module Point.
Record t : Type := mk { x : Z; y : Z }.
End Point.

Module Rect.
Record t : Type := mk { x : Z; y : Z; width : Z; height : Z }.

(** [cv::Rect::contains(const cv::Point&)]: half-open on both axes. *)
Definition contains (r : t) (p : Point.t) : bool :=
  (x r <=? Point.x p) && (Point.x p <? x r + width r) &&
  (y r <=? Point.y p) && (Point.y p <? y r + height r).
End Rect.

Module KeyPoint.
Record t : Type := mk { pt : Point2f.t }.
End KeyPoint.

Module DMatch.
Record t : Type := mk { queryIdx : Z; trainIdx : Z }.
End DMatch.

Module LidarPoint.
(** Modelled from the spec: dataStructures.h is not among the sources.  A
    range point has three coordinates (x forward, y left, z up) and a
    reflectivity; the code reads them as doubles. *)
Record t : Type := mk { x : double; y : double; z : double; r : double }.
End LidarPoint.

Module PointXYZ.
Record t : Type := mk { x : double; y : double; z : double }.
End PointXYZ.

Module BoundingBox.
(** Modelled from the spec: dataStructures.h is not among the sources.  A
    detection region has an integer identifier, a rectangle in pixel
    coordinates, and the collections of range points and of keypoint matches
    assigned to it; the other fields of the structure are not used by the
    routines. *)
Record t : Type := mk {
  boxID : Z;
  roi : Rect.t;
  lidarPoints : list LidarPoint.t;
  kptMatches : list DMatch.t
}.

Definition push_lidarPoint (p : LidarPoint.t) (b : t) : t :=
  mk (boxID b) (roi b) (lidarPoints b ++ [p]) (kptMatches b).

Definition set_kptMatches (ms : list DMatch.t) (b : t) : t :=
  mk (boxID b) (roi b) (lidarPoints b) ms.
End BoundingBox.

Module DataFrame.
(** Modelled from the spec: dataStructures.h is not among the sources.  Of
    a frame the routines use the keypoints and the detection regions. *)
Record t : Type := mk {
  keypoints : list KeyPoint.t;
  boundingBoxes : list BoundingBox.t
}.
End DataFrame.

(** A dense [cv::Mat] of doubles, row-major. *)
Module Mat.
Record t : Type := mk { rows : Z; cols : Z; data : list double }.

(** [Mat::at<double>(i, j)].  The release configuration of OpenCV performs
    no index check: the element read is the one at offset
    [i * step + j * sizeof(double)], that is entry [i * cols + j] of the
    buffer of a continuous matrix. *)
Definition at_ (m : t) (i j : Z) : outcome double :=
  let k := i * cols m + j in
  if k <? 0 then Fault InvalidDeref
  else match data m !! Z.to_nat k with
       | Some v => Ok v
       | None => Fault InvalidDeref
       end.
End Mat.

(** ** Collaborators: OpenCV and PCL *)

Class Vision : Type := {
  (** [cv::norm(a - b)] on two [cv::Point2f] *)
  norm_diff : Point2f.t -> Point2f.t -> double;
  (** [cv::Rect::contains] applied to a [cv::Point2f] *)
  contains_f : Rect.t -> Point2f.t -> bool;
  (** [cv::Mat] product, [A * B] *)
  mat_mul : Mat.t -> Mat.t -> Mat.t;
  (** [pcl::EuclideanClusterExtraction::extract] with the given tolerance
      and cluster size bounds: the indices of the points of each cluster *)
  extract : list PointXYZ.t -> double -> Z -> Z -> list (list Z)
}.

(** ** Vectors and iterators *)

(** [*it] for the iterator [begin() + it], and [v[i]]. *)
Definition deref {A} (v : list A) (it : Z) : outcome A :=
  if it <? 0 then Fault InvalidDeref
  else match v !! Z.to_nat it with
       | Some a => Ok a
       | None => Fault InvalidDeref
       end.

(** [v.at(i)]; the [int] index is converted to [size_t], so a negative one
    is out of range as well. *)
Definition vec_at {A} (v : list A) (i : Z) : outcome A :=
  if i <? 0 then Fault OutOfRange
  else match v !! Z.to_nat i with
       | Some a => Ok a
       | None => Fault OutOfRange
       end.

(** [v.end()] as an offset. *)
Definition vend {A} (v : list A) : Z := Z.of_nat (length v).

(** [v.erase(begin() + it)] for a dereferenceable [it]. *)
Definition erase {A} (v : list A) (it : Z) : list A :=
  take (Z.to_nat it) v ++ drop (S (Z.to_nat it)) v.

(** [for (it = first; it != last; ++it) body], on at most [fuel] rounds. *)
Fixpoint for_iter {S : Type} (fuel : nat) (it last : Z)
    (body : Z -> S -> outcome S) (s : S) : outcome S :=
  match fuel with
  | O => Fault OutOfFuel
  | Datatypes.S fuel' =>
      if it =? last then Ok s
      else s' ← body it s; for_iter fuel' (it + 1) last body s'
  end.

(** [for (auto &x : v) body]. *)
Fixpoint for_each {A S : Type} (v : list A) (body : A -> S -> outcome S)
    (s : S) : outcome S :=
  match v with
  | [] => Ok s
  | a :: v' => s' ← body a s; for_each v' body s'
  end.

(** [for (it = v.begin(); it != v.end(); ++it) body], the body receiving
    the iterator and the element it points to. *)
Definition for_range {A S : Type} (v : list A)
    (body : Z -> A -> S -> outcome S) (s : S) : outcome S :=
  for_iter (Datatypes.S (length v)) 0 (vend v)
    (fun it s => a ← deref v it; body it a s) s.

(** [std::sort] with [operator<] on doubles. *)
Fixpoint sorted_insert (x : double) (l : list double) : list double :=
  match l with
  | [] => [x]
  | y :: l' => if (x <? y)%float then x :: l else y :: sorted_insert x l'
  end.

Definition std_sort (l : list double) : list double :=
  foldr sorted_insert [] l.

(** [std::map<int,int>]: a finite map, traversed in increasing key order. *)
Definition key_le (a b : Z * Z) : Prop := a.1 ≤ b.1.

#[global] Instance key_le_dec : RelDecision key_le :=
  fun a b => Z_le_dec a.1 b.1.

Definition entries (m : gmap Z Z) : list (Z * Z) :=
  merge_sort key_le (map_to_list m).

(** [std::max_element(first, last, comp)] as the element reached, none when
    the range is empty (the iterator returned is then [last]). *)
Definition max_element {A} (comp : A -> A -> bool) (l : list A) : option A :=
  match l with
  | [] => None
  | a :: l' =>
      Some (fold_left (fun largest x => if comp largest x then x else largest)
              l' a)
  end.

Section CamFusion.
Context `{V : Vision}.

(** ** clusterLidarWithROI (lines 13-59) *)

(** Lines 22-31: the projection of a Lidar point into the image. *)
Definition project (P_rect_xx R_rect_xx RT : Mat.t) (p : LidarPoint.t)
    : outcome Point.t :=
  let X := Mat.mk 4 1
             [LidarPoint.x p; LidarPoint.y p; LidarPoint.z p; 1%float] in
  let Y := mat_mul (mat_mul (mat_mul P_rect_xx R_rect_xx) RT) X in
  y00 ← Mat.at_ Y 0 0;
  y02 ← Mat.at_ Y 0 2;
  ptx ← to_int (y00 / y02);
  y10 ← Mat.at_ Y 1 0;
  y02' ← Mat.at_ Y 0 2;
  pty ← to_int (y10 / y02');
  Ok (Point.mk ptx pty).

(** Lines 37-41: the shrunk rectangle.  [shrinkFactor] is a C++ [float]:
    [shrinkFactor * width] and [width * (1 - shrinkFactor)] are binary32
    operations, the division by [2.0] and the sum are binary64 ones, and
    every assignment to a field of [cv::Rect] converts to [int]. *)
Definition smallerBox (shrinkFactor : double) (roi : Rect.t)
    : outcome Rect.t :=
  let width := fl32 (of_int (Rect.width roi)) in
  let height := fl32 (of_int (Rect.height roi)) in
  x ← to_int (of_int (Rect.x roi) + fl32 (shrinkFactor * width) / 2);
  y ← to_int (of_int (Rect.y roi) + fl32 (shrinkFactor * height) / 2);
  w ← to_int (fl32 (width * fl32 (1 - shrinkFactor)));
  h ← to_int (fl32 (height * fl32 (1 - shrinkFactor)));
  Ok (Rect.mk x y w h).

(** Lines 33-49: the iterators of the boxes whose shrunk rectangle contains
    the pixel. *)
Definition enclosingBoxes (boundingBoxes : list BoundingBox.t)
    (shrinkFactor : double) (pt : Point.t) : outcome (list Z) :=
  for_range boundingBoxes
    (fun it2 box enclosing =>
       smaller ← smallerBox shrinkFactor (BoundingBox.roi box);
       if Rect.contains smaller pt then Ok (enclosing ++ [it2])
       else Ok enclosing)
    [].

(** Lines 19-58, one round of the loop over the Lidar points. *)
Definition associate (shrinkFactor : double) (P_rect_xx R_rect_xx RT : Mat.t)
    (p : LidarPoint.t) (boundingBoxes : list BoundingBox.t)
    : outcome (list BoundingBox.t) :=
  pt ← project P_rect_xx R_rect_xx RT p;
  enclosing ← enclosingBoxes boundingBoxes shrinkFactor pt;
  if Z.of_nat (length enclosing) =? 1 then
    it ← deref enclosing 0;
    _ ← deref boundingBoxes it;
    Ok (alter (BoundingBox.push_lidarPoint p) (Z.to_nat it) boundingBoxes)
  else Ok boundingBoxes.

Definition clusterLidarWithROI (boundingBoxes : list BoundingBox.t)
    (lidarPoints : list LidarPoint.t) (shrinkFactor : double)
    (P_rect_xx R_rect_xx RT : Mat.t) : outcome (list BoundingBox.t) :=
  for_range lidarPoints
    (fun _ p boxes => associate shrinkFactor P_rect_xx R_rect_xx RT p boxes)
    boundingBoxes.

(** ** clusterKptMatchesWithROI (lines 132-169) *)

(** [cv::norm(kpCurr.pt - kpPrev.pt)] for the two keypoints of a match,
    both fetched with [vector::at]. *)
Definition matchDistance (kptsPrev kptsCurr : list KeyPoint.t)
    (m : DMatch.t) : outcome double :=
  kpCurr ← vec_at kptsCurr (DMatch.trainIdx m);
  kpPrev ← vec_at kptsPrev (DMatch.queryIdx m);
  Ok (norm_diff (KeyPoint.pt kpCurr) (KeyPoint.pt kpPrev)).

(** Lines 134-141: the matches whose current keypoint lies in the region
    are appended to the region's matches. *)
Definition assignMatches (roi : Rect.t) (kptsCurr : list KeyPoint.t)
    (kptMatches : list DMatch.t) (assigned : list DMatch.t)
    : outcome (list DMatch.t) :=
  for_each kptMatches
    (fun match_ assigned =>
       currKeyPt ← deref kptsCurr (DMatch.trainIdx match_);
       if contains_f roi (KeyPoint.pt currKeyPt)
       then Ok (assigned ++ [match_]) else Ok assigned)
    assigned.

(** Lines 143-152: the mean distance of the region's matches. *)
Definition meanDistance (kptsPrev kptsCurr : list KeyPoint.t)
    (assigned : list DMatch.t) : outcome double :=
  sum ← for_each assigned
          (fun it sum =>
             distance ← matchDistance kptsPrev kptsCurr it;
             Ok (sum + distance)%float)
          0%float;
  Ok (sum / of_int (Z.of_nat (length assigned)))%float.

(** Lines 154-168:
    [for (it = v.begin(); it <= v.end();) { ... erase(it) / it++ ... }].
    The result of [erase] is not assigned to [it]: the iterator keeps its
    offset and, the elements behind it having moved down by one, designates
    the element that followed the erased one. *)
Fixpoint eraseOutliers (fuel : nat) (kptsPrev kptsCurr : list KeyPoint.t)
    (mean ratio : double) (v : list DMatch.t) (it : Z)
    : outcome (list DMatch.t) :=
  match fuel with
  | O => Fault OutOfFuel
  | Datatypes.S fuel' =>
      if it <=? vend v then
        m ← deref v it;
        distance ← matchDistance kptsPrev kptsCurr m;
        if (mean * ratio <=? distance)%float
        then eraseOutliers fuel' kptsPrev kptsCurr mean ratio (erase v it) it
        else eraseOutliers fuel' kptsPrev kptsCurr mean ratio v (it + 1)
      else Ok v
  end.

Definition clusterKptMatchesWithROI (boundingBox : BoundingBox.t)
    (kptsPrev kptsCurr : list KeyPoint.t) (kptMatches : list DMatch.t)
    : outcome BoundingBox.t :=
  assigned ← assignMatches (BoundingBox.roi boundingBox) kptsCurr kptMatches
               (BoundingBox.kptMatches boundingBox);
  mean ← meanDistance kptsPrev kptsCurr assigned;
  let ratio := 1.5%float in
  kept ← eraseOutliers (length assigned + 2) kptsPrev kptsCurr mean ratio
           assigned 0;
  Ok (BoundingBox.set_kptMatches kept boundingBox).

(** ** computeTTCCamera (lines 173-228) *)

(** Lines 185-204: the inner loop, for the outer match [it1]. *)
Definition innerLoop (kptsPrev kptsCurr : list KeyPoint.t)
    (kptMatches : list DMatch.t) (kpOuterPrev kpOuterCurr : KeyPoint.t)
    (distRatios : list double) : outcome (list double) :=
  for_iter (Datatypes.S (length kptMatches)) (0 + 1) (vend kptMatches)
    (fun it2 distRatios =>
       let minDist := 100%float in
       m2 ← deref kptMatches it2;
       kpInnerCurr ← vec_at kptsCurr (DMatch.trainIdx m2);
       kpInnerPrev ← vec_at kptsPrev (DMatch.queryIdx m2);
       let distCurr :=
         norm_diff (KeyPoint.pt kpOuterCurr) (KeyPoint.pt kpInnerCurr) in
       let distPrev :=
         norm_diff (KeyPoint.pt kpOuterPrev) (KeyPoint.pt kpInnerPrev) in
       if (DBL_EPSILON <? distPrev)%float && (minDist <=? distCurr)%float
       then Ok (distRatios ++ [distCurr / distPrev]%float)
       else Ok distRatios)
    distRatios.

(** Lines 177-205: the distance ratios. *)
Definition collectDistRatios (kptsPrev kptsCurr : list KeyPoint.t)
    (kptMatches : list DMatch.t) : outcome (list double) :=
  for_iter (Datatypes.S (length kptMatches)) 0 (vend kptMatches - 1)
    (fun it1 distRatios =>
       m1 ← deref kptMatches it1;
       kpOuterCurr ← vec_at kptsCurr (DMatch.trainIdx m1);
       kpOuterPrev ← vec_at kptsPrev (DMatch.queryIdx m1);
       innerLoop kptsPrev kptsCurr kptMatches kpOuterPrev kpOuterCurr
         distRatios)
    [].

End CamFusion.

(** Lines 216-218: [medianDistRatio] from the ratios.  [distRatios.size()]
    is a [size_t], so [size() / 2] is already an integer and [floor] leaves
    it alone. *)
Definition medianDistRatio (distRatios : list double) : outcome double :=
  let distRatios := std_sort distRatios in
  let medianIdx := Z.of_nat (length distRatios) / 2 in
  if Z.rem medianIdx 2 =? 0 then
    a ← deref distRatios (medianIdx - 1);
    b ← deref distRatios medianIdx;
    Ok ((a + b) / 2)%float
  else deref distRatios medianIdx.

(** Lines 207-227: TTC from the ratios. *)
Definition ttcFromRatios (distRatios : list double) (frameRate : double)
    : outcome double :=
  if Z.of_nat (length distRatios) =? 0 then Ok nan
  else
    medianDistRatio ← medianDistRatio distRatios;
    let dT := (1 / frameRate)%float in
    if negb (medianDistRatio =? 1)%float
    then Ok (- dT / (1 - medianDistRatio))%float
    else Ok infinity.

Definition computeTTCCamera `{V : Vision} (kptsPrev kptsCurr : list KeyPoint.t)
    (kptMatches : list DMatch.t) (frameRate : double) : outcome double :=
  distRatios ← collectDistRatios kptsPrev kptsCurr kptMatches;
  ttcFromRatios distRatios frameRate.

(** ** clustering and computeTTCLidar (lines 230-311) *)

Section Lidar.
Context `{V : Vision}.

(** Lines 230-269.  [clusterTolerance] is a C++ [float]. *)
Definition clustering (lidarPoints : list LidarPoint.t)
    (clusterTolerance : double) (minSize maxSize : Z)
    : outcome (list PointXYZ.t) :=
  let cloud :=
    map (fun p => PointXYZ.mk (fl32 (LidarPoint.x p)) (fl32 (LidarPoint.y p))
                    (fl32 (LidarPoint.z p)))
        lidarPoints in
  let clusterIndices := extract cloud clusterTolerance minSize maxSize in
  if Z.of_nat (length clusterIndices) =? 0 then Ok []
  else
    for_each clusterIndices
      (fun getIndices clusters =>
         for_each getIndices
           (fun index clusters =>
              p ← deref cloud index;
              Ok (clusters ++ [p]))
           clusters)
      [].

(** Lines 287-293 and 295-301: the closest point within the ego lane. *)
Definition closestInLane (laneWidht : double) (points : list PointXYZ.t)
    (minX : double) : double :=
  fold_left
    (fun minX lidarPt =>
       if (fabs (PointXYZ.y lidarPt) <? laneWidht / 2)%float
       then (if (PointXYZ.x lidarPt <? minX)%float
             then PointXYZ.x lidarPt else minX)
       else minX)
    points minX.

(** Lines 274-304 once both frames are clustered. *)
Definition ttcFromClusters (clusterPrevPts clusterCurrPts : list PointXYZ.t)
    (frameRate : double) : double :=
  let dt := (1 / frameRate)%float in
  let laneWidht := 4%float in
  let minXPrev := closestInLane laneWidht clusterPrevPts 1e9%float in
  let minXCurr := closestInLane laneWidht clusterCurrPts 1e9%float in
  (minXCurr / ((minXPrev - minXCurr) / dt))%float.

Definition computeTTCLidar (lidarPointsPrev lidarPointsCurr : list LidarPoint.t)
    (frameRate : double) : outcome double :=
  let clusterTolerance := 0.05%float in
  clusterPrevPts ← clustering lidarPointsPrev (fl32 clusterTolerance) 30 25000;
  clusterCurrPts ← clustering lidarPointsCurr (fl32 clusterTolerance) 30 25000;
  Ok (ttcFromClusters clusterPrevPts clusterCurrPts frameRate).

End Lidar.

(** ** matchBoundingBoxes (lines 313-358) *)

Section Matching.
Context `{V : Vision}.

(** Lines 334-341: one vote for the current box. *)
Definition vote (boxID : Z) (m : gmap Z Z) : gmap Z Z :=
  match m !! boxID with
  | None => <[boxID := 1]> m
  | Some n => <[boxID := n + 1]> m
  end.

(** Lines 323-347: the vote table of one previous box. *)
Definition votes (matches : list DMatch.t) (prevFrame currFrame : DataFrame.t)
    (prevBox : BoundingBox.t) : outcome (gmap Z Z) :=
  for_each (DataFrame.boundingBoxes currFrame)
    (fun currBox m =>
       for_each matches
         (fun match_ m =>
            prevKeyPoint ←
              deref (DataFrame.keypoints prevFrame) (DMatch.queryIdx match_);
            if contains_f (BoundingBox.roi prevBox) (KeyPoint.pt prevKeyPoint)
            then
              currKeyPoint ←
                deref (DataFrame.keypoints currFrame) (DMatch.trainIdx match_);
              if contains_f (BoundingBox.roi currBox)
                   (KeyPoint.pt currKeyPoint)
              then Ok (vote (BoundingBox.boxID currBox) m)
              else Ok m
            else Ok m)
         m)
    ∅.

(** Lines 349-350: [bestMatch->first] for the iterator returned by
    [std::max_element]; on an empty table that iterator is [m.end()]. *)
Definition bestMatch (m : gmap Z Z) : outcome Z :=
  match max_element (fun a b : Z * Z => a.2 <? b.2) (entries m) with
  | Some e => Ok e.1
  | None => Fault InvalidDeref
  end.

Definition matchBoundingBoxes (matches : list DMatch.t)
    (bbBestMatches : gmap Z Z) (prevFrame currFrame : DataFrame.t)
    : outcome (gmap Z Z) :=
  for_each (DataFrame.boundingBoxes prevFrame)
    (fun prevBox bbBestMatches =>
       m ← votes matches prevFrame currFrame prevBox;
       best ← bestMatch m;
       Ok (<[BoundingBox.boxID prevBox := best]> bbBestMatches))
    bbBestMatches.

End Matching.

(** ** A reference implementation of the collaborators

    Used to run the routines on concrete frames.  Keypoint coordinates are
    binary32 values, so the difference of two of them is rounded to
    binary32 and the norm is taken in binary64, as [cv::norm] does;
    [contains] on a [cv::Point2f] converts the point to integer pixels by
    rounding to nearest, ties to even. *)

Module Reference.

Definition norm_diff (a b : Point2f.t) : double :=
  let dx := fl32 (Point2f.x a - Point2f.x b) in
  let dy := fl32 (Point2f.y a - Point2f.y b) in
  PrimFloat.sqrt (dx * dx + dy * dy).

(** [cvRound] *)
Definition cvRound (x : double) : Z :=
  match Prim2SF x with
  | S754_finite s m e =>
      let n :=
        if 0 <=? e then Zpos m * 2 ^ e
        else
          let q := Zpos m / 2 ^ (- e) in
          let r := Zpos m mod 2 ^ (- e) in
          let half := 2 ^ (- e - 1) in
          if r <? half then q
          else if half <? r then q + 1
          else if Z.even q then q else q + 1 in
      Z.max INT_MIN (Z.min INT_MAX (cond_Zopp s n))
  | _ => 0
  end.

Definition contains_f (r : Rect.t) (p : Point2f.t) : bool :=
  Rect.contains r (Point.mk (cvRound (Point2f.x p)) (cvRound (Point2f.y p))).

Definition dot (u v : list double) : double :=
  fold_left (fun acc p => (acc + p.1 * p.2)%float) (zip u v) 0%float.

Definition row (m : Mat.t) (i : nat) : list double :=
  take (Z.to_nat (Mat.cols m)) (drop (i * Z.to_nat (Mat.cols m)) (Mat.data m)).

Definition col (m : Mat.t) (j : nat) : list double :=
  omap (fun i => row m i !! j) (seq 0 (Z.to_nat (Mat.rows m))).

Definition mat_mul (a b : Mat.t) : Mat.t :=
  Mat.mk (Mat.rows a) (Mat.cols b)
    (flat_map
       (fun i => map (fun j => dot (row a i) (col b j))
                   (seq 0 (Z.to_nat (Mat.cols b))))
       (seq 0 (Z.to_nat (Mat.rows a)))).

Definition sqrDist (p q : PointXYZ.t) : double :=
  let dx := fl32 (PointXYZ.x p - PointXYZ.x q) in
  let dy := fl32 (PointXYZ.y p - PointXYZ.y q) in
  let dz := fl32 (PointXYZ.z p - PointXYZ.z q) in
  fl32 (fl32 (fl32 (dx * dx) + fl32 (dy * dy)) + fl32 (dz * dz)).

(** Region growing from a queue of seeds: every point within the tolerance
    of a queued point joins the queue.  A cluster is kept when its size is
    within the bounds, with its indices in increasing order. *)
Fixpoint grow (fuel : nat) (tol2 : double)
    (queue : list (nat * PointXYZ.t)) (rest : list (nat * PointXYZ.t))
    (done : list nat) : list nat * list (nat * PointXYZ.t) :=
  match fuel, queue with
  | Datatypes.S fuel', s :: queue' =>
      let near := filter (fun q => (sqrDist s.2 q.2 <=? tol2)%float = true) rest in
      let far := filter (fun q => (sqrDist s.2 q.2 <=? tol2)%float ≠ true) rest in
      grow fuel' tol2 (queue' ++ near) far (done ++ [s.1])
  | _, _ => (done ++ map fst queue, rest)
  end.

Fixpoint clusters (fuel : nat) (tol2 : double) (minSize maxSize : Z)
    (rest : list (nat * PointXYZ.t)) : list (list Z) :=
  match fuel, rest with
  | Datatypes.S fuel', s :: rest' =>
      let '(c, rest'') := grow (length rest) tol2 [s] rest' [] in
      let tail := clusters fuel' tol2 minSize maxSize rest'' in
      if (minSize <=? Z.of_nat (length c)) && (Z.of_nat (length c) <=? maxSize)
      then merge_sort Z.le (map Z.of_nat c) :: tail else tail
  | _, _ => []
  end.

(** [EuclideanClusterExtraction::extract] ends with
    [std::sort (clusters.rbegin (), clusters.rend (), comparePointClusters)]:
    the clusters come out largest first.  Clusters of the same size stay in
    the order of discovery, as the insertion sort a standard library runs
    on a short range leaves them. *)
Fixpoint insertBySize (c : list Z) (cs : list (list Z)) : list (list Z) :=
  match cs with
  | [] => [c]
  | d :: cs' =>
      if Nat.ltb (length d) (length c) then c :: cs
      else d :: insertBySize c cs'
  end.

Definition largestFirst (cs : list (list Z)) : list (list Z) :=
  fold_left (fun sorted c => insertBySize c sorted) cs [].

Definition extract (cloud : list PointXYZ.t) (tolerance : double)
    (minSize maxSize : Z) : list (list Z) :=
  largestFirst
    (clusters (length cloud) (tolerance * tolerance)%float minSize maxSize
       (zip (seq 0 (length cloud)) cloud)).

Definition vision : Vision :=
  Build_Vision norm_diff contains_f mat_mul extract.

End Reference.

(** ** The order of the doubles

    Every double but the not-a-number one has a key in Z x Z x Z, and
    [<] on doubles is the lexicographic order of the keys. *)

Definition floatKey (x : double) : option (Z * Z * Z) :=
  match Prim2SF x with
  | S754_nan => None
  | S754_infinity true => Some (-2, 0, 0)
  | S754_infinity false => Some (2, 0, 0)
  | S754_zero _ => Some (0, 0, 0)
  | S754_finite true m e => Some (-1, - e, Zneg m)
  | S754_finite false m e => Some (1, e, Zpos m)
  end.

Definition lexCompare (k1 k2 : Z * Z * Z) : comparison :=
  match k1.1.1 ?= k2.1.1 with
  | Eq => match k1.1.2 ?= k2.1.2 with
          | Eq => k1.2 ?= k2.2
          | c => c
          end
  | c => c
  end.

Definition lexLt (k1 k2 : Z * Z * Z) : Prop :=
  k1.1.1 < k2.1.1 \/
  (k1.1.1 = k2.1.1 /\
   (k1.1.2 < k2.1.2 \/ (k1.1.2 = k2.1.2 /\ k1.2 < k2.2))).

(** A double other than the not-a-number one: what [x == x] tests. *)
Definition ordered (x : double) : Prop := (x =? x)%float = true.

(** No double of the sequence is below [m]. *)
Definition lowerBound (m : double) (xs : list double) : Prop :=
  Forall (fun x => (x <? m)%float = false) xs.

(** The run ends, normally or on a fault of the program, before the bound
    the model puts on the rounds of its loops. *)
Definition withinFuel {A} (m : outcome A) : Prop := m <> Fault OutOfFuel.

(** ** Notions of the design document *)

(** The median of a sorted sequence: the average of the two central values
    for an even count, the single central value for an odd count. *)
Definition median (sorted : list double) : option double :=
  let n := length sorted in
  if Nat.even n then
    a ← sorted !! (n / 2 - 1)%nat;
    b ← sorted !! (n / 2)%nat;
    Some ((a + b) / 2)%float
  else sorted !! (n / 2)%nat.

(** A match with its two keypoints looked up. *)
Definition resolve (kptsPrev kptsCurr : list KeyPoint.t) (m : DMatch.t)
    : option (KeyPoint.t * KeyPoint.t) :=
  if (DMatch.queryIdx m <? 0) || (DMatch.trainIdx m <? 0) then None
  else
    kpPrev ← kptsPrev !! Z.to_nat (DMatch.queryIdx m);
    kpCurr ← kptsCurr !! Z.to_nat (DMatch.trainIdx m);
    Some (kpPrev, kpCurr).

(** The ratio contributed by a pair of resolved matches, if the pair passes
    the two thresholds. *)
Definition pairRatio `{V : Vision} (a b : KeyPoint.t * KeyPoint.t)
    : list double :=
  let distCurr := norm_diff (KeyPoint.pt a.2) (KeyPoint.pt b.2) in
  let distPrev := norm_diff (KeyPoint.pt a.1) (KeyPoint.pt b.1) in
  if (DBL_EPSILON <? distPrev)%float && (100 <=? distCurr)%float
  then [(distCurr / distPrev)%float] else [].

(** One ratio per unordered pair of distinct matches: [i < j]. *)
Fixpoint unorderedPairRatios `{V : Vision} (rs : list (KeyPoint.t * KeyPoint.t))
    : list double :=
  match rs with
  | [] => []
  | a :: rs' => flat_map (pairRatio a) rs' ++ unorderedPairRatios rs'
  end.

(** The pairs the two loops of [computeTTCCamera] go through: the outer
    match among all but the last, the inner match among all but the
    first. *)
Definition gridRatios `{V : Vision} (rs : list (KeyPoint.t * KeyPoint.t))
    : list double :=
  flat_map (fun a => flat_map (pairRatio a) (drop 1 rs))
    (take (length rs - 1) rs).

(** Whether both keypoints of a match exist. *)
Definition resolves (kptsPrev kptsCurr : list KeyPoint.t) (m : DMatch.t)
    : Prop :=
  is_Some (resolve kptsPrev kptsCurr m).

(** Whether the current keypoint of a match lies in the region. *)
Definition inRegion `{V : Vision} (roi : Rect.t) (kptsCurr : list KeyPoint.t)
    (m : DMatch.t) : bool :=
  match kptsCurr !! Z.to_nat (DMatch.trainIdx m) with
  | Some k => contains_f roi (KeyPoint.pt k)
  | None => false
  end.

(** Whether the removal pass keeps a match: its keypoint displacement is
    not at or above [ratio] times the mean. *)
Definition keeps `{V : Vision} (kptsPrev kptsCurr : list KeyPoint.t)
    (mean ratio : double) (m : DMatch.t) : bool :=
  match matchDistance kptsPrev kptsCurr m with
  | Ok distance => negb (mean * ratio <=? distance)%float
  | Fault _ => false
  end.

(** Whether a match votes for the pair of a previous and a current box:
    its previous keypoint lies in the former and its current keypoint in the
    latter. *)
Definition castsVote `{V : Vision} (prevFrame currFrame : DataFrame.t)
    (prevBox currBox : BoundingBox.t) (m : DMatch.t) : bool :=
  match DataFrame.keypoints prevFrame !! Z.to_nat (DMatch.queryIdx m),
        DataFrame.keypoints currFrame !! Z.to_nat (DMatch.trainIdx m) with
  | Some p, Some c =>
      contains_f (BoundingBox.roi prevBox) (KeyPoint.pt p)
      && contains_f (BoundingBox.roi currBox) (KeyPoint.pt c)
  | _, _ => false
  end.

(** The vote table of a previous box, as a fold over the current boxes and
    the matches. *)
Definition tally `{V : Vision} (matches : list DMatch.t)
    (prevFrame currFrame : DataFrame.t) (prevBox : BoundingBox.t)
    : gmap Z Z :=
  fold_left
    (fun m currBox =>
       fold_left
         (fun m match_ =>
            if castsVote prevFrame currFrame prevBox currBox match_
            then vote (BoundingBox.boxID currBox) m else m)
         matches m)
    (DataFrame.boundingBoxes currFrame) ∅.

(** The homogeneous product of lines 22-28. *)
Definition homogeneous `{V : Vision} (P_rect_xx R_rect_xx RT : Mat.t)
    (p : LidarPoint.t) : Mat.t :=
  mat_mul (mat_mul (mat_mul P_rect_xx R_rect_xx) RT)
    (Mat.mk 4 1 [LidarPoint.x p; LidarPoint.y p; LidarPoint.z p; 1%float]).

(** The pixel of a point is, as numbers, the pair of quotients of the first
    two components of the product by the third. *)
Definition pixelIsQuotient `{V : Vision} (P_rect_xx R_rect_xx RT : Mat.t)
    (p : LidarPoint.t) : Prop :=
  forall (pt : Point.t) (y0 y1 y2 : double) (rest : list double),
    Mat.data (homogeneous P_rect_xx R_rect_xx RT p) = y0 :: y1 :: y2 :: rest ->
    project P_rect_xx R_rect_xx RT p = Ok pt ->
    of_int (Point.x pt) = (y0 / y2)%float /\
    of_int (Point.y pt) = (y1 / y2)%float.

(** Whether the shrunk rectangle of a box contains the pixel. *)
Definition encloses (shrinkFactor : double) (pt : Point.t)
    (box : BoundingBox.t) : bool :=
  match smallerBox shrinkFactor (BoundingBox.roi box) with
  | Ok smaller => Rect.contains smaller pt
  | Fault _ => false
  end.

(** The offsets of the boxes whose shrunk rectangle contains the pixel,
    in increasing order. *)
Definition enclosers (shrinkFactor : double) (pt : Point.t)
    (boxes : list BoundingBox.t) : list Z :=
  fst <$> List.filter (fun ib : Z * BoundingBox.t => encloses shrinkFactor pt ib.2)
            (zip (seqZ 0 (vend boxes)) boxes).

(** The conversions to [int] of lines 38-41 are defined for the box. *)
Definition shrinks (shrinkFactor : double) (box : BoundingBox.t) : Prop :=
  exists smaller, smallerBox shrinkFactor (BoundingBox.roi box) = Ok smaller.

(** The projection of the point is defined. *)
Definition projects `{V : Vision} (P_rect_xx R_rect_xx RT : Mat.t)
    (p : LidarPoint.t) : Prop :=
  exists pt, project P_rect_xx R_rect_xx RT p = Ok pt.

(** A box with more Lidar points appended. *)
Definition extend (box : BoundingBox.t) (ps : list LidarPoint.t)
    : BoundingBox.t :=
  BoundingBox.mk (BoundingBox.boxID box) (BoundingBox.roi box)
    (BoundingBox.lidarPoints box ++ ps) (BoundingBox.kptMatches box).

(** The number of boxes whose shrunk rectangle contains the pixel. *)
Definition enclosingCount (shrinkFactor : double) (pt : Point.t)
    (boxes : list BoundingBox.t) : nat :=
  length (List.filter (encloses shrinkFactor pt) boxes).

(** The pixel of the point lies in the shrunk rectangle of box number [k]
    and in exactly one shrunk rectangle of the frame. *)
Definition assignedTo `{V : Vision} (shrinkFactor : double)
    (P_rect_xx R_rect_xx RT : Mat.t) (boxes : list BoundingBox.t) (k : nat)
    (p : LidarPoint.t) : bool :=
  match project P_rect_xx R_rect_xx RT p, boxes !! k with
  | Ok pt, Some box =>
      encloses shrinkFactor pt box
      && (enclosingCount shrinkFactor pt boxes =? 1)%nat
  | _, _ => false
  end.

(** The value of a finite double, as a rational. *)
Definition exact (x : double) : option Q :=
  match Prim2SF x with
  | S754_zero _ => Some 0%Q
  | S754_finite s m e =>
      Some (inject_Z (cond_Zopp s (Zpos m)) * Qpower 2 e)%Q
  | _ => None
  end.






(** The points within 2.0 of the centreline of the lane. *)
Definition inLane (points : list PointXYZ.t) : list PointXYZ.t :=
  List.filter (fun p => (fabs (PointXYZ.y p) <? 2)%float) points.

(** The smaller of two doubles. *)
Definition fmin (a b : double) : double := if (b <? a)%float then b else a.

(** The minimum of the forward distances [xs] and of the value 1e9 the code
    starts from. *)
Definition minForward (xs : list double) : double :=
  fold_left fmin xs 1e9%float.

(** The number of matches that vote for the pair of a previous and a
    current box. *)
Definition voteCount `{V : Vision} (matches : list DMatch.t)
    (prevFrame currFrame : DataFrame.t) (prevBox currBox : BoundingBox.t)
    : nat :=
  length (List.filter (castsVote prevFrame currFrame prevBox currBox) matches).

(** A count added to an entry of the vote table that may be missing. *)
Definition addVotes (entry : option Z) (n : nat) : option Z :=
  if (n =? 0)%nat then entry else Some (default 0 entry + Z.of_nat n).

(** The number of Lidar points held by the boxes. *)
Definition totalLidarPoints (boxes : list BoundingBox.t) : nat :=
  sum_list ((fun box => length (BoundingBox.lidarPoints box)) <$> boxes).

(** The pixel of the point lies in exactly one shrunk rectangle. *)
Definition uniquelyEnclosed `{V : Vision} (shrinkFactor : double)
    (P_rect_xx R_rect_xx RT : Mat.t) (boxes : list BoundingBox.t)
    (p : LidarPoint.t) : bool :=
  match project P_rect_xx R_rect_xx RT p with
  | Ok pt => (enclosingCount shrinkFactor pt boxes =? 1)%nat
  | Fault _ => false
  end.

(** The point of the cloud made from a Lidar point at line 236. *)
Definition toXYZ (p : LidarPoint.t) : PointXYZ.t :=
  PointXYZ.mk (fl32 (LidarPoint.x p)) (fl32 (LidarPoint.y p))
    (fl32 (LidarPoint.z p)).

(** ** Frames used to run the routines *)

Module Frames.

Definition kp (x y : double) : KeyPoint.t := KeyPoint.mk (Point2f.mk x y).

(** Four collinear keypoints, matched in order. *)
Definition prev4 : list KeyPoint.t :=
  [kp 0 0; kp 100 0; kp 200 0; kp 300 0]%float.
Definition curr4 : list KeyPoint.t :=
  [kp 0 0; kp 200 0; kp 500 0; kp 600 0]%float.
Definition matches4 : list DMatch.t :=
  [DMatch.mk 0 0; DMatch.mk 1 1; DMatch.mk 2 2; DMatch.mk 3 3].

(** Three keypoints; the last two are 50 pixels apart in the current frame,
    so only the pairs (0,1) and (0,2) pass the thresholds. *)
Definition prev3 : list KeyPoint.t :=
  [kp 0 0; kp 0 100; kp 0 200]%float.
Definition curr3 : list KeyPoint.t :=
  [kp 0 0; kp 0 200; kp 0 250]%float.
Definition matches3 : list DMatch.t :=
  [DMatch.mk 0 0; DMatch.mk 1 1; DMatch.mk 2 2].

(** Two keypoints, twice as far apart in the current frame. *)
Definition prev2 : list KeyPoint.t := [kp 0 0; kp 100 0]%float.
Definition curr2 : list KeyPoint.t := [kp 0 0; kp 200 0]%float.
Definition matches2 : list DMatch.t := [DMatch.mk 0 0; DMatch.mk 1 1].

(** Five matches whose keypoints moved by 1, 1, 1, 1 and 100 pixels, all
    inside [region5]; none of them inside [farRegion]. *)
Definition prev5 : list KeyPoint.t :=
  [kp 10 10; kp 20 10; kp 30 10; kp 40 10; kp 50 10]%float.
Definition curr5 : list KeyPoint.t :=
  [kp 10 11; kp 20 11; kp 30 11; kp 40 11; kp 50 110]%float.
Definition matches5 : list DMatch.t :=
  [DMatch.mk 0 0; DMatch.mk 1 1; DMatch.mk 2 2; DMatch.mk 3 3; DMatch.mk 4 4].
Definition region5 : BoundingBox.t :=
  BoundingBox.mk 1 (Rect.mk 0 0 200 200) [] [].
Definition farRegion : BoundingBox.t :=
  BoundingBox.mk 2 (Rect.mk 500 500 10 10) [] [].

(** A previous frame with two boxes and a current frame with two boxes.
    Previous box 1 holds the previous keypoints of the three matches; two of
    them land in current box 5 and one in current box 7.  Previous box 2
    holds no keypoint. *)
Definition prevFrame : DataFrame.t :=
  DataFrame.mk [kp 10 10; kp 20 20; kp 30 30]%float
    [BoundingBox.mk 1 (Rect.mk 0 0 100 100) [] [];
     BoundingBox.mk 2 (Rect.mk 500 500 50 50) [] []].
Definition currFrame : DataFrame.t :=
  DataFrame.mk [kp 15 15; kp 25 25; kp 300 300]%float
    [BoundingBox.mk 5 (Rect.mk 0 0 100 100) [] [];
     BoundingBox.mk 7 (Rect.mk 250 250 100 100) [] []].
Definition frameMatches : list DMatch.t :=
  [DMatch.mk 0 0; DMatch.mk 1 1; DMatch.mk 2 2].

(** The same previous frame without its second box. *)
Definition prevFrame1 : DataFrame.t :=
  DataFrame.mk (DataFrame.keypoints prevFrame)
    (take 1 (DataFrame.boundingBoxes prevFrame)).

(** A projection chain that leaves the coordinates alone: the pixel of the
    point (x, y, z) is (x / z, y / z). *)
Definition P0 : Mat.t :=
  Mat.mk 3 4 [1; 0; 0; 0;  0; 1; 0; 0;  0; 0; 1; 0]%float.
Definition I4 : Mat.t :=
  Mat.mk 4 4 [1; 0; 0; 0;  0; 1; 0; 0;  0; 0; 1; 0;  0; 0; 0; 1]%float.
Definition point332 : LidarPoint.t := LidarPoint.mk 3 3 2 0.

(** Two overlapping boxes and three points: the pixel (20, 20) of the
    first lies in the first shrunk rectangle only, the pixel (70, 70) of the
    second in both, the pixel (300, 300) of the third in none. *)
Definition lidarBoxes : list BoundingBox.t :=
  [BoundingBox.mk 1 (Rect.mk 0 0 100 100) [] [];
   BoundingBox.mk 2 (Rect.mk 50 50 100 100) [] []].
Definition lidarPoints : list LidarPoint.t :=
  [LidarPoint.mk 20 20 1 0; LidarPoint.mk 70 70 1 0;
   LidarPoint.mk 300 300 1 0]%float.
Definition shrinkFactor : double := fl32 0.1%float.


(** Two clouds of thirty points each, every point within 0.05 of another so
    that each cloud is one cluster.  The first three points of each cloud
    lie in the lane (|y| < 2) and the other twenty-seven just outside it.
    The in-lane points are at x = 10.0, 10.2, 10.1 in the previous cloud and
    at x = 9.0, 9.1, 9.05 in the current one. *)
Definition lp (x y : double) : LidarPoint.t := LidarPoint.mk x y 0 0.
Definition prevCloud : list LidarPoint.t :=
  [lp 10 1.99; lp 10.2 1.99; lp 10.1 1.99]%float
  ++ map (fun k => lp (10 + 0.04 * of_int k) 2.02)%float (seqZ 0 6)
  ++ map (fun k => lp 10.2 (2.02 + 0.04 * of_int k))%float (seqZ 1 21).
Definition currCloud : list LidarPoint.t :=
  [lp 9 1.99; lp 9.1 1.99; lp 9.05 1.99]%float
  ++ map (fun k => lp (9 + 0.04 * of_int k) 2.02)%float (seqZ 0 3)
  ++ map (fun k => lp 9.08 (2.02 + 0.04 * of_int k))%float (seqZ 1 24).

(** Three matched keypoints that stay within 100 pixels of one another. *)
Definition prevSmall : list KeyPoint.t :=
  [kp 10 10; kp 20 10; kp 30 10]%float.
Definition currSmall : list KeyPoint.t :=
  [kp 10 10; kp 22 10; kp 34 10]%float.


(** Thirty points 0.04 apart, all of them more than 2.0 from the
    centreline. *)
Definition offLane : list LidarPoint.t :=
  map (fun k => lp 10 (2.02 + 0.04 * of_int k))%float (seqZ 0 30).

End Frames.

(** * Properties *)

(** ** The order of the doubles *)

Lemma lexCompare_Lt (k1 k2 : Z * Z * Z) :
  lexCompare k1 k2 = Lt <-> lexLt k1 k2.
Proof.
  destruct k1 as [[a1 b1] c1], k2 as [[a2 b2] c2].
  unfold lexCompare, lexLt. simpl.
  destruct (Z.compare_spec a1 a2), (Z.compare_spec b1 b2),
    (Z.compare_spec c1 c2); split; intros Hg; try discriminate;
    try reflexivity; lia.
Qed.

Lemma lexCompare_refl (k : Z * Z * Z) : lexCompare k k = Eq.
Proof.
  destruct k as [[a b] c]. unfold lexCompare. simpl.
  rewrite !Z.compare_refl. reflexivity.
Qed.

(** [SFcompare] is the comparison of the keys. *)
Lemma compare_keys (x y : double) :
  SFcompare (Prim2SF x) (Prim2SF y)
  = match floatKey x, floatKey y with
    | Some k1, Some k2 => Some (lexCompare k1 k2)
    | _, _ => None
    end.
Proof.
  unfold floatKey.
  destruct (Prim2SF x) as [[|]|[|]| |[|] m1 e1],
           (Prim2SF y) as [[|]|[|]| |[|] m2 e2];
    try reflexivity; unfold lexCompare; simpl.
  rewrite Z.compare_opp, (Z.compare_antisym e1 e2).
  destruct (e1 ?= e2); reflexivity.
Qed.

Lemma ordered_key (x : double) : ordered x <-> is_Some (floatKey x).
Proof.
  unfold ordered. rewrite FloatAxioms.eqb_spec. unfold SFeqb. rewrite compare_keys.
  destruct (floatKey x) as [k|].
  - rewrite lexCompare_refl. split; eauto.
  - split; [discriminate|intros [k [=]]].
Qed.

Lemma ltb_keys (x y : double) :
  (x <? y)%float = true <->
  exists k1 k2, floatKey x = Some k1 /\ floatKey y = Some k2 /\ lexLt k1 k2.
Proof.
  rewrite FloatAxioms.ltb_spec. unfold SFltb. rewrite compare_keys.
  destruct (floatKey x) as [k1|], (floatKey y) as [k2|].
  - pose proof (lexCompare_Lt k1 k2) as Hlt.
    destruct (lexCompare k1 k2); split.
    + discriminate.
    + intros (? & ? & [= <-] & [= <-] & H). apply Hlt in H. discriminate.
    + intros _. exists k1, k2. intuition.
    + reflexivity.
    + discriminate.
    + intros (? & ? & [= <-] & [= <-] & H). apply Hlt in H. discriminate.
  - split; [discriminate | intros (? & ? & _ & [=] & _)].
  - split; [discriminate | intros (? & ? & [=] & _)].
  - split; [discriminate | intros (? & ? & [=] & _)].
Qed.

Lemma leb_keys (x y : double) :
  (x <=? y)%float = true <->
  exists k1 k2, floatKey x = Some k1 /\ floatKey y = Some k2 /\
                (lexLt k1 k2 \/ k1 = k2).
Proof.
  rewrite FloatAxioms.leb_spec. unfold SFleb. rewrite compare_keys.
  assert (Hflip : forall k1 k2, lexCompare k1 k2 <> Gt <-> lexLt k1 k2 \/ k1 = k2).
  { intros [[a1 b1] c1] [[a2 b2] c2]. unfold lexCompare, lexLt. simpl.
    destruct (Z.compare_spec a1 a2), (Z.compare_spec b1 b2),
      (Z.compare_spec c1 c2); split; intros Hg;
      first [ discriminate | congruence | left; lia | right; congruence
            | exfalso; destruct Hg as [Hg|Hg]; [lia | inversion Hg; lia] ]. }
  destruct (floatKey x) as [k1|], (floatKey y) as [k2|].
  - specialize (Hflip k1 k2).
    destruct (lexCompare k1 k2); split; intros H; try reflexivity;
      try discriminate.
    + exists k1, k2. split; [reflexivity|]. split; [reflexivity|].
      apply Hflip. discriminate.
    + exists k1, k2. split; [reflexivity|]. split; [reflexivity|].
      apply Hflip. discriminate.
    + destruct H as (? & ? & [= <-] & [= <-] & H). apply Hflip in H.
      congruence.
  - split; [discriminate | intros (? & ? & _ & [=] & _)].
  - split; [discriminate | intros (? & ? & [=] & _)].
  - split; [discriminate | intros (? & ? & [=] & _)].
Qed.

Lemma lexLt_trans (k1 k2 k3 : Z * Z * Z) :
  lexLt k1 k2 -> lexLt k2 k3 -> lexLt k1 k3.
Proof.
  destruct k1 as [[a1 b1] c1], k2 as [[a2 b2] c2], k3 as [[a3 b3] c3].
  unfold lexLt. simpl. lia.
Qed.

Lemma lexLt_irrefl (k : Z * Z * Z) : ~ lexLt k k.
Proof. destruct k as [[a b] c]. unfold lexLt. simpl. lia. Qed.

Lemma lexLt_total (k1 k2 : Z * Z * Z) : lexLt k1 k2 \/ k1 = k2 \/ lexLt k2 k1.
Proof.
  destruct k1 as [[a1 b1] c1], k2 as [[a2 b2] c2]. unfold lexLt. simpl.
  destruct (Z.lt_total a1 a2) as [?|[?|?]],
    (Z.lt_total b1 b2) as [?|[?|?]],
    (Z.lt_total c1 c2) as [?|[?|?]]; subst; auto 10.
Qed.

(** On doubles that are numbers, [not (x < y)] is [y <= x]. *)
Lemma ltb_false_leb (x y : double) :
  ordered x -> ordered y -> (x <? y)%float = false -> (y <=? x)%float = true.
Proof.
  intros [k1 Hx]%ordered_key [k2 Hy]%ordered_key Hlt.
  apply leb_keys. exists k2, k1. split; [exact Hy|]. split; [exact Hx|].
  destruct (lexLt_total k1 k2) as [H|[H|H]]; auto.
  exfalso. apply not_true_iff_false in Hlt. apply Hlt.
  apply ltb_keys. eauto.
Qed.

Lemma ltb_leb (x y : double) :
  (x <? y)%float = true -> (x <=? y)%float = true.
Proof.
  intros (k1 & k2 & Hx & Hy & H)%ltb_keys. apply leb_keys. eauto 6.
Qed.

Lemma ltb_ordered (x y : double) :
  (x <? y)%float = true -> ordered x /\ ordered y.
Proof.
  intros (k1 & k2 & Hx & Hy & _)%ltb_keys.
  split; apply ordered_key; eauto.
Qed.

Lemma leb_trans (x y z : double) :
  (x <=? y)%float = true -> (y <=? z)%float = true -> (x <=? z)%float = true.
Proof.
  intros (k1 & k2 & Hx & Hy & H12)%leb_keys (k2' & k3 & Hy' & Hz & H23)%leb_keys.
  rewrite Hy in Hy'. injection Hy' as <-.
  apply leb_keys. exists k1, k3. split; [exact Hx|]. split; [exact Hz|].
  destruct H12 as [H12| ->], H23 as [H23| ->]; auto.
  left. eapply lexLt_trans; eassumption.
Qed.

(** If [x < r] and [f] is a number that is not below [r], then [x < f]. *)
Lemma ltb_below (x r f : double) :
  (x <? r)%float = true -> ordered f -> (f <? r)%float = false ->
  (x <? f)%float = true.
Proof.
  intros (k1 & k2 & Hx & Hr & H12)%ltb_keys [k3 Hf]%ordered_key Hfr.
  apply ltb_keys. exists k1, k3. split; [exact Hx|]. split; [exact Hf|].
  destruct (lexLt_total k3 k2) as [H|[H|H]].
  - exfalso. apply not_true_iff_false in Hfr. apply Hfr.
    apply ltb_keys. eauto 6.
  - subst. exact H12.
  - eapply lexLt_trans; eassumption.
Qed.

Lemma ltb_irrefl (x : double) : (x <? x)%float = false.
Proof.
  apply not_true_iff_false. intros (k1 & k2 & Hx & Hy & H)%ltb_keys.
  rewrite Hx in Hy. injection Hy as <-. exact (lexLt_irrefl k1 H).
Qed.

Lemma ltb_asym (x y : double) :
  (x <? y)%float = true -> (y <? x)%float = false.
Proof.
  intros (k1 & k2 & Hx & Hy & H)%ltb_keys.
  apply not_true_iff_false. intros (k2' & k1' & Hy' & Hx' & H')%ltb_keys.
  rewrite Hx in Hx'. rewrite Hy in Hy'. injection Hx' as <-. injection Hy' as <-.
  exact (lexLt_irrefl k1 (lexLt_trans _ _ _ H H')).
Qed.

(** *** Sorting *)

Lemma length_sorted_insert (x : double) (l : list double) :
  length (sorted_insert x l) = Datatypes.S (length l).
Proof.
  induction l as [|y l IH]; simpl; [reflexivity|].
  destruct (x <? y)%float; simpl; [reflexivity | rewrite IH; reflexivity].
Qed.

Lemma length_std_sort (l : list double) : length (std_sort l) = length l.
Proof.
  induction l as [|x l IH]; simpl; [reflexivity|].
  rewrite length_sorted_insert, IH. reflexivity.
Qed.

Lemma sorted_insert_perm (x : double) (l : list double) :
  sorted_insert x l ≡ₚ x :: l.
Proof.
  induction l as [|y l IH]; simpl; [reflexivity|].
  destruct (x <? y)%float; [reflexivity|].
  rewrite IH. apply Permutation_swap.
Qed.

(** Sorting rearranges the sequence and drops nothing. *)
Lemma std_sort_perm (l : list double) : std_sort l ≡ₚ l.
Proof.
  induction l as [|x l IH]; simpl; [reflexivity|].
  rewrite sorted_insert_perm, IH. reflexivity.
Qed.

Lemma sorted_insert_HdRel (x y : double) (l : list double) :
  (y <=? x)%float = true ->
  HdRel (fun a b => (a <=? b)%float = true) y l ->
  HdRel (fun a b => (a <=? b)%float = true) y (sorted_insert x l).
Proof.
  intros Hyx Hl. destruct l as [|z l]; simpl.
  - constructor. exact Hyx.
  - destruct (x <? z)%float; constructor; [exact Hyx|].
    inversion Hl. assumption.
Qed.

Lemma sorted_insert_sorted (x : double) (l : list double) :
  ordered x -> Forall ordered l ->
  Sorted (fun a b => (a <=? b)%float = true) l ->
  Sorted (fun a b => (a <=? b)%float = true) (sorted_insert x l).
Proof.
  intros Hx Hl Hs. induction l as [|y l IH]; simpl.
  - repeat constructor.
  - apply Forall_cons in Hl as [Hy Hl]. apply Sorted_inv in Hs as [Hs Hhd].
    destruct (x <? y)%float eqn:Hxy.
    + constructor; [constructor; assumption|].
      constructor. apply ltb_leb, Hxy.
    + constructor; [apply IH; assumption|].
      apply sorted_insert_HdRel; [|exact Hhd].
      apply ltb_false_leb; assumption.
Qed.

(** On ratios that are numbers, the model of [std::sort] returns the
    sorted rearrangement of its argument. *)
Lemma std_sort_sorted (l : list double) :
  Forall ordered l ->
  StronglySorted (fun a b => (a <=? b)%float = true) (std_sort l).
Proof.
  intros Hl. apply Sorted_StronglySorted.
  - intros a b c. apply leb_trans.
  - induction Hl as [|x l Hx Hl IH]; simpl; [constructor|].
    apply sorted_insert_sorted; [exact Hx| |exact IH].
    rewrite std_sort_perm. exact Hl.
Qed.

(** *** Minimum *)

Lemma fmin_ordered (m x : double) : ordered m -> ordered (fmin m x).
Proof.
  intros Hm. unfold fmin. destruct (x <? m)%float eqn:Hxm; [|exact Hm].
  apply (ltb_ordered _ _ Hxm).
Qed.

Lemma fold_fmin_ordered (xs : list double) (m : double) :
  ordered m -> ordered (fold_left fmin xs m).
Proof.
  revert m. induction xs as [|x xs IH]; intros m Hm; simpl; [exact Hm|].
  apply IH, fmin_ordered, Hm.
Qed.

Lemma fold_fmin_below_start (xs : list double) (m : double) :
  ordered m -> (m <? fold_left fmin xs m)%float = false.
Proof.
  revert m. induction xs as [|x xs IH]; intros m Hm; simpl.
  - apply ltb_irrefl.
  - apply not_true_iff_false. intros Hlt.
    pose proof (ltb_below _ _ _ Hlt (fmin_ordered m x Hm)
                  (IH _ (fmin_ordered m x Hm))) as Hf.
    unfold fmin in Hf. destruct (x <? m)%float eqn:Hxm.
    + apply ltb_asym in Hxm. congruence.
    + rewrite ltb_irrefl in Hf. discriminate.
Qed.

(** The fold of [fmin] is a lower bound of the sequence ... *)
Lemma fold_fmin_lower_bound (xs : list double) (m : double) :
  ordered m -> lowerBound (fold_left fmin xs m) xs.
Proof.
  unfold lowerBound. revert m.
  induction xs as [|x xs IH]; intros m Hm; simpl; constructor.
  - apply not_true_iff_false. intros Hlt.
    pose proof (ltb_below _ _ _ Hlt (fmin_ordered m x Hm)
                  (fold_fmin_below_start xs _ (fmin_ordered m x Hm))) as Hf.
    unfold fmin in Hf. destruct (x <? m)%float eqn:Hxm.
    + rewrite ltb_irrefl in Hf. discriminate.
    + congruence.
  - apply IH, fmin_ordered, Hm.
Qed.

(** ... and is the start value or a member of the sequence. *)
Lemma fold_fmin_attained (xs : list double) (m : double) :
  fold_left fmin xs m = m \/ fold_left fmin xs m ∈ xs.
Proof.
  revert m. induction xs as [|x xs IH]; intros m; simpl; [left; reflexivity|].
  destruct (IH (fmin m x)) as [->|Hin].
  - unfold fmin. destruct (x <? m)%float; [right; left | left; reflexivity].
  - right. right. exact Hin.
Qed.


(** ** Loops *)

Lemma deref_lookup {A} (v : list A) (n : nat) (a : A) :
  v !! n = Some a -> deref v (Z.of_nat n) = Ok a.
Proof.
  intros H. unfold deref.
  destruct (Z.ltb_spec (Z.of_nat n) 0) as [Hn|_]; [lia|].
  rewrite Nat2Z.id, H. reflexivity.
Qed.

Lemma deref_vend {A} (v : list A) : deref v (vend v) = Fault InvalidDeref.
Proof.
  unfold deref, vend.
  destruct (Z.ltb_spec (Z.of_nat (length v)) 0) as [Hn|_]; [lia|].
  rewrite Nat2Z.id, (lookup_ge_None_2 v (length v)) by lia. reflexivity.
Qed.

(** A [for] loop over iterators that runs from [lo] to [lo + n] is a
    traversal of the offsets [lo], ..., [lo + n - 1], provided the bound on
    the rounds is above [n]. *)
Lemma for_iter_seqZ {S} (body : Z -> S -> outcome S) (n : nat) :
  forall (fuel : nat) (lo : Z) (s : S),
    (n < fuel)%nat ->
    for_iter fuel lo (lo + Z.of_nat n) body s
    = for_each (seqZ lo (Z.of_nat n)) body s.
Proof.
  induction n as [|n IH]; intros fuel lo s Hfuel.
  - destruct fuel as [|fuel]; [lia|]. simpl.
    rewrite Z.add_0_r, Z.eqb_refl. reflexivity.
  - destruct fuel as [|fuel]; [lia|].
    rewrite seqZ_cons by lia. simpl for_iter. simpl for_each.
    destruct (Z.eqb_spec lo (lo + Z.of_nat (Datatypes.S n))) as [E|_]; [lia|].
    destruct (body lo s) as [s'|f]; simpl; [|reflexivity].
    replace (lo + Z.of_nat (Datatypes.S n)) with (Z.succ lo + Z.of_nat n) by lia.
    replace (Z.pred (Z.of_nat (Datatypes.S n))) with (Z.of_nat n) by lia.
    replace (lo + 1) with (Z.succ lo) by lia.
    apply IH. lia.
Qed.

(** Traversing [n] offsets from [lo] and dereferencing each is traversing
    the [n] elements of [v] from [lo]. *)
Lemma for_each_offsets {A S} (v : list A) (body : A -> S -> outcome S) :
  forall (n lo : nat) (s : S),
    (lo + n <= length v)%nat ->
    for_each (seqZ (Z.of_nat lo) (Z.of_nat n))
      (fun it s => a ← deref v it; body a s) s
    = for_each (take n (drop lo v)) body s.
Proof.
  induction n as [|n IH]; intros lo s Hlen.
  - reflexivity.
  - destruct (lookup_lt_is_Some_2 v lo) as [a Ha]; [lia|].
    rewrite (drop_S v a lo Ha), seqZ_cons by lia. simpl.
    rewrite (deref_lookup v lo a Ha). simpl.
    destruct (body a s) as [s'|f]; simpl; [|reflexivity].
    replace (Z.succ (Z.of_nat lo)) with (Z.of_nat (Datatypes.S lo)) by lia.
    replace (Z.pred (Z.of_nat (Datatypes.S n))) with (Z.of_nat n) by lia.
    apply IH. lia.
Qed.

Lemma for_each_offsets_zip {A S} (body : Z -> A -> S -> outcome S) :
  forall (v u : list A) (s : S),
    for_each (seqZ (vend u) (vend v))
      (fun it s => a ← deref (u ++ v) it; body it a s) s
    = for_each (zip (seqZ (vend u) (vend v)) v) (fun p s => body p.1 p.2 s) s.
Proof.
  unfold vend.
  induction v as [|a v IH]; intros u s; [reflexivity|].
  cbn [length]. rewrite seqZ_cons by lia. simpl.
  rewrite (deref_lookup (u ++ a :: v) (length u) a)
    by (rewrite lookup_app_r, Nat.sub_diag by lia; reflexivity).
  simpl. destruct (body (Z.of_nat (length u)) a s) as [s'|f]; simpl;
    [|reflexivity].
  replace (Z.succ (Z.of_nat (length u)))
    with (Z.of_nat (length (u ++ [a]))) by (rewrite length_app; simpl; lia).
  replace (Z.pred (Z.of_nat (Datatypes.S (length v))))
    with (Z.of_nat (length v)) by lia.
  specialize (IH (u ++ [a]) s'). rewrite <- app_assoc in IH. exact IH.
Qed.

(** [for (it = v.begin(); it != v.end(); ++it)] visits the elements of [v]
    in order, each with its offset. *)
Lemma for_range_for_each {A S} (v : list A) (body : Z -> A -> S -> outcome S)
    (s : S) :
  for_range v body s
  = for_each (zip (seqZ 0 (vend v)) v) (fun p s => body p.1 p.2 s) s.
Proof.
  unfold for_range.
  rewrite (for_iter_seqZ _ (length v) _ 0 s) by lia.
  exact (for_each_offsets_zip body v [] s).
Qed.

(** ** computeTTCCamera *)

Section CameraFacts.
Context `{V : Vision}.

Lemma resolve_vec_at (kptsPrev kptsCurr : list KeyPoint.t) (m : DMatch.t)
    (a : KeyPoint.t * KeyPoint.t) :
  resolve kptsPrev kptsCurr m = Some a ->
  vec_at kptsCurr (DMatch.trainIdx m) = Ok a.2 /\
  vec_at kptsPrev (DMatch.queryIdx m) = Ok a.1.
Proof.
  unfold resolve, vec_at.
  destruct (DMatch.queryIdx m <? 0), (DMatch.trainIdx m <? 0); simpl;
    try discriminate.
  destruct (kptsPrev !! Z.to_nat (DMatch.queryIdx m)) as [p|]; simpl;
    [|discriminate].
  destruct (kptsCurr !! Z.to_nat (DMatch.trainIdx m)) as [c|]; simpl;
    [|discriminate].
  intros [= <-]. split; reflexivity.
Qed.

(** The inner loop appends, in order, the ratio of every pair made of the
    outer match and one of the matches after the first. *)
Lemma innerLoop_ratios (kptsPrev kptsCurr : list KeyPoint.t)
    (kptMatches : list DMatch.t) (rs : list (KeyPoint.t * KeyPoint.t))
    (a : KeyPoint.t * KeyPoint.t) (acc : list double) :
  Forall2 (fun m r => resolve kptsPrev kptsCurr m = Some r) kptMatches rs ->
  kptMatches <> [] ->
  innerLoop kptsPrev kptsCurr kptMatches a.1 a.2 acc
  = Ok (acc ++ flat_map (pairRatio a) (drop 1 rs)).
Proof.
  intros Hres Hne. unfold innerLoop, vend.
  destruct kptMatches as [|m0 ms]; [congruence|clear Hne].
  destruct rs as [|r0 rs]; [inversion Hres|].
  apply Forall2_cons_1 in Hres as [_ Hres].
  cbn [length].
  replace (Z.of_nat (Datatypes.S (length ms)))
    with (0 + 1 + Z.of_nat (length ms)) by lia.
  rewrite for_iter_seqZ by lia.
  change (0 + 1) with (Z.of_nat 1).
  rewrite (for_each_offsets (m0 :: ms)
             (fun m2 distRatios =>
                kpInnerCurr ← vec_at kptsCurr (DMatch.trainIdx m2);
                kpInnerPrev ← vec_at kptsPrev (DMatch.queryIdx m2);
                if (DBL_EPSILON
                      <? norm_diff (KeyPoint.pt a.1) (KeyPoint.pt kpInnerPrev))%float
                   && (100
                       <=? norm_diff (KeyPoint.pt a.2) (KeyPoint.pt kpInnerCurr))%float
                then Ok (distRatios
                           ++ [norm_diff (KeyPoint.pt a.2) (KeyPoint.pt kpInnerCurr)
                               / norm_diff (KeyPoint.pt a.1) (KeyPoint.pt kpInnerPrev)]%float)
                else Ok distRatios))
    by (simpl; lia).
  simpl drop. rewrite !drop_0, take_ge by lia.
  clear m0 r0. revert acc.
  induction Hres as [|m r ms rs Hm _ IH]; intros acc; simpl.
  - rewrite app_nil_r. reflexivity.
  - destruct (resolve_vec_at _ _ _ _ Hm) as [-> ->]. simpl.
    unfold pairRatio at 1.
    destruct (_ && _); simpl; rewrite IH.
    + rewrite <- app_assoc. reflexivity.
    + reflexivity.
Qed.

(** What the two loops collect: one ratio for each surviving pair of the
    grid (outer match among all but the last) x (inner match among all but
    the first). *)
Lemma collectDistRatios_grid (kptsPrev kptsCurr : list KeyPoint.t)
    (kptMatches : list DMatch.t) (rs : list (KeyPoint.t * KeyPoint.t)) :
  mapM (resolve kptsPrev kptsCurr) kptMatches = Some rs ->
  kptMatches <> [] ->
  collectDistRatios kptsPrev kptsCurr kptMatches = Ok (gridRatios rs).
Proof.
  intros Hres Hne. apply mapM_Some in Hres.
  assert (Hlen : length kptMatches = length rs)
    by (eapply Forall2_length; exact Hres).
  unfold collectDistRatios, gridRatios, vend.
  assert (Hpos : (0 < length kptMatches)%nat)
    by (destruct kptMatches; [congruence | simpl; lia]).
  replace (Z.of_nat (length kptMatches) - 1)
    with (0 + Z.of_nat (length kptMatches - 1)) by lia.
  rewrite for_iter_seqZ by lia.
  change 0 with (Z.of_nat 0) at 1.
  rewrite (for_each_offsets kptMatches
             (fun m1 distRatios =>
                kpOuterCurr ← vec_at kptsCurr (DMatch.trainIdx m1);
                kpOuterPrev ← vec_at kptsPrev (DMatch.queryIdx m1);
                innerLoop kptsPrev kptsCurr kptMatches kpOuterPrev kpOuterCurr
                  distRatios))
    by lia.
  rewrite drop_0, <- Hlen.
  pose proof (Forall2_take _ _ _ (length kptMatches - 1) Hres) as Htake.
  enough (Hacc : forall acc,
    for_each (take (length kptMatches - 1) kptMatches)
      (fun m1 distRatios =>
         kpOuterCurr ← vec_at kptsCurr (DMatch.trainIdx m1);
         kpOuterPrev ← vec_at kptsPrev (DMatch.queryIdx m1);
         innerLoop kptsPrev kptsCurr kptMatches kpOuterPrev kpOuterCurr
           distRatios) acc
    = Ok (acc ++ flat_map (fun a => flat_map (pairRatio a) (drop 1 rs))
                   (take (length kptMatches - 1) rs)))
    by exact (Hacc []).
  induction Htake as [|m a ms' rs' Hm _ IH]; intros acc; simpl.
  - rewrite app_nil_r. reflexivity.
  - destruct (resolve_vec_at _ _ _ _ Hm) as [-> ->]. simpl.
    rewrite (innerLoop_ratios _ _ _ rs a acc Hres Hne). simpl.
    rewrite IH. simpl. rewrite <- app_assoc. reflexivity.
Qed.

End CameraFacts.

(** *** The value called [medianDistRatio] *)

(** With a single ratio [medianIdx] is 0, an even number: the code reads
    [distRatios[-1]]. *)
Lemma medianDistRatio_single (a : double) :
  medianDistRatio [a] = Fault InvalidDeref.
Proof. reflexivity. Qed.

(** With two ratios [medianIdx] is 1, an odd number: the code takes the
    larger ratio alone. *)
Lemma medianDistRatio_pair (a b : double) :
  medianDistRatio [a; b] = Ok (if (a <? b)%float then b else a).
Proof.
  unfold medianDistRatio. simpl std_sort.
  destruct (a <? b)%float; reflexivity.
Qed.

(** The parity of [medianIdx] is the parity of the count only when the
    count is 0 or 3 modulo 4: there, and only there in general, the code
    computes the median. *)
Lemma medianDistRatio_median (l : list double) :
  l <> [] ->
  (length l mod 4 = 0 \/ length l mod 4 = 3)%nat ->
  exists m, median (std_sort l) = Some m /\ medianDistRatio l = Ok m.
Proof.
  intros Hne Hmod. unfold medianDistRatio, median.
  pose proof (length_std_sort l) as Hlen.
  set (s := std_sort l) in *. set (n := length l) in *.
  assert (Hn : (0 < n)%nat) by (subst n; destruct l; [congruence|simpl; lia]).
  rewrite Hlen.
  assert (Hdiv : Z.of_nat n / 2 = Z.of_nat (n / 2)) by (rewrite Nat2Z.inj_div; reflexivity).
  rewrite Hdiv.
  pose proof (Nat.div_mod_eq n 4) as Hn4.
  destruct Hmod as [Hmod|Hmod].
  - (* n = 4q: both take the average of entries n/2-1 and n/2 *)
    assert (Hhalf : (n / 2 = 2 * (n / 4))%nat).
    { rewrite Hn4 at 1. rewrite Hmod, Nat.add_0_r.
      replace (4 * (n / 4))%nat with ((2 * (n / 4)) * 2)%nat by lia.
      apply Nat.div_mul. lia. }
    assert (Heven : Nat.even n = true).
    { apply Nat.even_spec. exists (2 * (n / 4))%nat. lia. }
    rewrite Heven.
    assert (Hrem : Z.rem (Z.of_nat (n / 2)) 2 = 0).
    { rewrite Hhalf, Nat2Z.inj_mul. simpl (Z.of_nat 2).
      rewrite Z.mul_comm. apply Z.rem_mul. lia. }
    rewrite Hrem. simpl (0 =? 0).
    destruct (lookup_lt_is_Some_2 s (n / 2 - 1)) as [a Ha]; [lia|].
    destruct (lookup_lt_is_Some_2 s (n / 2)) as [b Hb]; [lia|].
    exists ((a + b) / 2)%float.
    split; [rewrite Ha; cbn [mbind option_bind]; rewrite Hb; reflexivity|].
    replace (Z.of_nat (n / 2) - 1) with (Z.of_nat (n / 2 - 1)) by lia.
    rewrite (deref_lookup s _ a Ha), (deref_lookup s _ b Hb). reflexivity.
  - (* n = 4q + 3: both take entry n/2 *)
    assert (Hhalf : (n / 2 = 2 * (n / 4) + 1)%nat).
    { rewrite Hn4 at 1. rewrite Hmod.
      replace (4 * (n / 4) + 3)%nat with (1 + (2 * (n / 4) + 1) * 2)%nat by lia.
      rewrite Nat.div_add by lia. simpl (1 / 2)%nat. lia. }
    assert (Heven : Nat.even n = false).
    { rewrite <- Nat.negb_odd. apply negb_false_iff, Nat.odd_spec.
      exists (2 * (n / 4) + 1)%nat. lia. }
    rewrite Heven.
    assert (Hrem : Z.rem (Z.of_nat (n / 2)) 2 = 1).
    { rewrite Hhalf.
      replace (Z.of_nat (2 * (n / 4) + 1)) with (1 + Z.of_nat (n / 4) * 2) by lia.
      rewrite Z.rem_add by lia. reflexivity. }
    rewrite Hrem. simpl (1 =? 0).
    destruct (lookup_lt_is_Some_2 s (n / 2)) as [b Hb]; [lia|].
    exists b. split; [exact Hb|]. exact (deref_lookup s _ b Hb).
Qed.

(** *** From the ratios to the TTC *)

(** The branches of lines 207-227, for the value [m] that lines 216-218
    produce. *)
Lemma ttcFromRatios_branches (distRatios : list double) (frameRate : double) :
  (distRatios = [] -> ttcFromRatios distRatios frameRate = Ok nan) /\
  (forall m, distRatios <> [] -> medianDistRatio distRatios = Ok m ->
     ttcFromRatios distRatios frameRate
     = Ok (if (m =? 1)%float then infinity
           else (- (1 / frameRate) / (1 - m))%float)).
Proof.
  split.
  - intros ->. reflexivity.
  - intros m Hne Hm. unfold ttcFromRatios.
    destruct distRatios as [|r rs]; [congruence|].
    cbn [length]. rewrite Hm. simpl.
    destruct (m =? 1)%float; reflexivity.
Qed.

(** *** The pairs the loops go through *)

(** On four matches the grid holds nine ordered pairs: the pair of the two
    middle matches in both orders, and each of them with itself. *)
Lemma gridRatios_four `{V : Vision} (a b c d : KeyPoint.t * KeyPoint.t) :
  gridRatios [a; b; c; d]
  = pairRatio a b ++ pairRatio a c ++ pairRatio a d
    ++ pairRatio b b ++ pairRatio b c ++ pairRatio b d
    ++ pairRatio c b ++ pairRatio c c ++ pairRatio c d.
Proof.
  unfold gridRatios. cbn [length Nat.sub take drop flat_map].
  rewrite !app_nil_r, <- !app_assoc. reflexivity.
Qed.

(** *** The claims on the camera estimator *)

(** C1 (the code departs from the claim).  The value that lines 216-218
    compute is not the median of the ratios: the test is on the parity of
    [medianIdx], not of the count.  A single ratio is its own median, and
    the code reads [distRatios[-1]]; of two ratios the median is their
    average, and the code takes the larger one.  On [Frames.matches2] the
    single surviving ratio is 2.  On [Frames.matches3] the two surviving
    ratios are 2 and 1.25, their median is 1.625, and the code takes 2. *)
Theorem medianDistRatio_not_median :
  (forall a : double,
     median (std_sort [a]) = Some a /\
     medianDistRatio [a] = Fault InvalidDeref) /\
  (forall a b : double,
     median (std_sort [a; b])
       = Some (if (a <? b)%float then (a + b) / 2 else (b + a) / 2)%float /\
     medianDistRatio [a; b] = Ok (if (a <? b)%float then b else a)) /\
  collectDistRatios (V := Reference.vision)
    Frames.prev2 Frames.curr2 Frames.matches2 = Ok [2]%float /\
  collectDistRatios (V := Reference.vision)
    Frames.prev3 Frames.curr3 Frames.matches3 = Ok [2; 1.25]%float /\
  median (std_sort [2; 1.25]%float) = Some 1.625%float /\
  medianDistRatio [2; 1.25]%float = Ok 2%float.
Proof.
  split; [intros a; split; reflexivity|].
  split.
  - intros a b. split; [|apply medianDistRatio_pair].
    unfold median. simpl std_sort. destruct (a <? b)%float; reflexivity.
  - repeat split; vm_compute; reflexivity.
Qed.

(** C5 (the code departs from the claim).  The inner loop starts at
    [begin() + 1] and not after the outer match, so a pair of matches that
    are neither the first nor the last is gone through twice.  On the four
    matches of [Frames.matches4] all six unordered pairs pass the thresholds,
    with ratios 2, 2.5, 2, 3, 2, 1; the code records seven ratios, the ratio
    3 of the pair (1, 2) twice. *)
Theorem collectDistRatios_repeats_inner_pairs :
  collectDistRatios (V := Reference.vision)
    Frames.prev4 Frames.curr4 Frames.matches4
    = Ok [2; 2.5; 2; 3; 2; 3; 1]%float /\
  unorderedPairRatios (V := Reference.vision) <$>
    mapM (resolve Frames.prev4 Frames.curr4) Frames.matches4
    = Some [2; 2.5; 2; 3; 2; 1]%float.
Proof. split; vm_compute; reflexivity. Qed.

(** C6 (the code departs from the claim).  The three branches of lines
    207-227 are the ones the claim lists ([ttcFromRatios_branches]), but the
    value they are applied to is not the median.  With the single surviving
    ratio 2 of [Frames.matches2] and a frame rate of 10 Hz the claim gives
    -0.1 / (1 - 2) = 0.1, and the code reads [distRatios[-1]].  With the two
    ratios of [Frames.matches3] the median 1.625 gives 0.16, and the code
    returns -0.1 / (1 - 2) = 0.1. *)
Theorem computeTTCCamera_not_from_median :
  computeTTCCamera (V := Reference.vision)
    Frames.prev2 Frames.curr2 Frames.matches2 10%float
    = Fault InvalidDeref /\
  computeTTCCamera (V := Reference.vision)
    Frames.prev3 Frames.curr3 Frames.matches3 10%float
    = Ok (- (1 / 10) / (1 - 2))%float /\
  (- (1 / 10) / (1 - 1.625))%float <> (- (1 / 10) / (1 - 2))%float.
Proof.
  repeat split; try (vm_compute; reflexivity).
  vm_compute. intros H.
  apply (f_equal (fun x => (x =? 0.16)%float)) in H.
  vm_compute in H. discriminate.
Qed.

(** C10.  On an empty match list the outer loop, bounded by [end() - 1],
    starts and dereferences [begin()], which is [end()]: the run is
    undefined.  On a match list of one match the outer loop does not start:
    no ratio is recorded and TTC is the not-a-number value.  On any
    non-empty list of matches that refer to existing keypoints every
    iterator the loops dereference is valid, and the ratios are collected. *)
Theorem computeTTCCamera_short_match_lists `{V : Vision}
    (kptsPrev kptsCurr : list KeyPoint.t) (frameRate : double) :
  collectDistRatios kptsPrev kptsCurr [] = Fault InvalidDeref /\
  computeTTCCamera kptsPrev kptsCurr [] frameRate = Fault InvalidDeref /\
  (forall m : DMatch.t,
     collectDistRatios kptsPrev kptsCurr [m] = Ok [] /\
     computeTTCCamera kptsPrev kptsCurr [m] frameRate = Ok nan) /\
  (forall kptMatches rs,
     kptMatches <> [] ->
     mapM (resolve kptsPrev kptsCurr) kptMatches = Some rs ->
     collectDistRatios kptsPrev kptsCurr kptMatches = Ok (gridRatios rs)).
Proof.
  split; [reflexivity|]. split; [reflexivity|]. split.
  - intros m. split; reflexivity.
  - intros kptMatches rs Hne Hres.
    apply collectDistRatios_grid; assumption.
Qed.

Lemma computeTTCCamera_short_match_lists_witness :
  Frames.matches4 <> [] /\
  is_Some (mapM (resolve Frames.prev4 Frames.curr4) Frames.matches4) /\
  collectDistRatios (V := Reference.vision)
    Frames.prev4 Frames.curr4 Frames.matches4
  = Ok [2; 2.5; 2; 3; 2; 3; 1]%float.
Proof.
  assert (Hne : Frames.matches4 <> []) by discriminate.
  pose (rs := default [] (mapM (resolve Frames.prev4 Frames.curr4)
                            Frames.matches4)).
  assert (Hres : mapM (resolve Frames.prev4 Frames.curr4) Frames.matches4
                 = Some rs) by (vm_compute; reflexivity).
  split; [exact Hne|]. split; [rewrite Hres; eauto|].
  rewrite (proj2 (proj2 (proj2 (computeTTCCamera_short_match_lists
                                  (V := Reference.vision)
                                  Frames.prev4 Frames.curr4 10%float)))
             Frames.matches4 rs Hne Hres).
  vm_compute. reflexivity.
Defined.

(** ** clusterKptMatchesWithROI *)

Section KptMatchFacts.
Context `{V : Vision}.

Lemma resolves_matchDistance (kptsPrev kptsCurr : list KeyPoint.t)
    (m : DMatch.t) :
  resolves kptsPrev kptsCurr m ->
  exists d, matchDistance kptsPrev kptsCurr m = Ok d.
Proof.
  intros [a Ha]. destruct (resolve_vec_at _ _ _ _ Ha) as [Hc Hp].
  unfold matchDistance. rewrite Hc, Hp. simpl. eauto.
Qed.

Lemma resolves_deref_curr (kptsPrev kptsCurr : list KeyPoint.t)
    (m : DMatch.t) :
  resolves kptsPrev kptsCurr m ->
  exists k, kptsCurr !! Z.to_nat (DMatch.trainIdx m) = Some k /\
            deref kptsCurr (DMatch.trainIdx m) = Ok k.
Proof.
  intros [a Ha]. unfold resolve in Ha. unfold deref.
  destruct (DMatch.queryIdx m <? 0); [discriminate|].
  destruct (DMatch.trainIdx m <? 0); [discriminate|]. simpl in Ha.
  destruct (kptsPrev !! Z.to_nat (DMatch.queryIdx m)); [|discriminate].
  simpl in Ha.
  destruct (kptsCurr !! Z.to_nat (DMatch.trainIdx m)) as [k|]; [|discriminate].
  eauto.
Qed.

(** The membership step appends the matches of the region, in order. *)
Lemma assignMatches_filter (roi : Rect.t) (kptsPrev kptsCurr : list KeyPoint.t)
    (kptMatches assigned : list DMatch.t) :
  Forall (resolves kptsPrev kptsCurr) kptMatches ->
  assignMatches roi kptsCurr kptMatches assigned
  = Ok (assigned ++ List.filter (inRegion roi kptsCurr) kptMatches).
Proof.
  unfold assignMatches. intros Hres. revert assigned.
  induction Hres as [|m ms Hm _ IH]; intros assigned; simpl.
  - rewrite app_nil_r. reflexivity.
  - destruct (resolves_deref_curr _ _ _ Hm) as (k & Hk & ->). simpl.
    assert (Hin : inRegion roi kptsCurr m = contains_f roi (KeyPoint.pt k))
      by (unfold inRegion; rewrite Hk; reflexivity).
    rewrite Hin.
    destruct (contains_f roi (KeyPoint.pt k)); simpl.
    + rewrite IH, <- app_assoc. reflexivity.
    + apply IH.
Qed.

Lemma meanDistance_defined (kptsPrev kptsCurr : list KeyPoint.t)
    (assigned : list DMatch.t) :
  Forall (resolves kptsPrev kptsCurr) assigned ->
  exists mean, meanDistance kptsPrev kptsCurr assigned = Ok mean.
Proof.
  unfold meanDistance. intros Hres.
  enough (Hsum : forall s0, exists s,
            for_each assigned
              (fun it sum =>
                 distance ← matchDistance kptsPrev kptsCurr it;
                 Ok (sum + distance)%float) s0 = Ok s).
  { destruct (Hsum 0%float) as [s ->]. simpl. eauto. }
  induction Hres as [|m ms Hm _ IH]; intros s0; simpl; [eauto|].
  destruct (resolves_matchDistance _ _ _ Hm) as [d ->]. simpl. apply IH.
Qed.

(** With no match assigned the mean is 0 / 0. *)
Lemma meanDistance_nil (kptsPrev kptsCurr : list KeyPoint.t) :
  meanDistance kptsPrev kptsCurr [] = Ok nan.
Proof. reflexivity. Qed.

Lemma length_erase {A} (v : list A) (n : nat) :
  (n < length v)%nat ->
  length (erase v (Z.of_nat n)) = (length v - 1)%nat.
Proof.
  intros Hn. unfold erase.
  rewrite Nat2Z.id, length_app, length_take, length_drop. lia.
Qed.

Lemma Forall_erase {A} (P : A -> Prop) (v : list A) (it : Z) :
  Forall P v -> Forall P (erase v it).
Proof.
  intros H. unfold erase. apply Forall_app. split.
  - apply Forall_take, H.
  - apply Forall_drop, H.
Qed.

(** The removal pass cannot end on its loop test.  Every round either
    erases the element under the iterator or moves the iterator by one, so
    the iterator reaches [end()]; there the test [it <= end()] still holds
    and the body dereferences [end()]. *)
Lemma eraseOutliers_past_end (kptsPrev kptsCurr : list KeyPoint.t)
    (mean ratio : double) :
  forall (fuel : nat) (v : list DMatch.t) (it : nat),
    Forall (resolves kptsPrev kptsCurr) v ->
    (it <= length v)%nat ->
    (length v - it < fuel)%nat ->
    eraseOutliers fuel kptsPrev kptsCurr mean ratio v (Z.of_nat it)
    = Fault InvalidDeref.
Proof.
  induction fuel as [|fuel IH]; intros v it Hres Hit Hfuel; [lia|].
  simpl. unfold vend.
  destruct (Z.leb_spec (Z.of_nat it) (Z.of_nat (length v))) as [_|Hgt]; [|lia].
  destruct (decide (it = length v)) as [->|Hne].
  - pose proof (deref_vend v) as He. unfold vend in He. rewrite He. reflexivity.
  - destruct (lookup_lt_is_Some_2 v it) as [m Hm]; [lia|].
    rewrite (deref_lookup v it m Hm). simpl.
    assert (Hrm : resolves kptsPrev kptsCurr m).
    { rewrite Forall_forall in Hres. apply Hres.
      eapply list_elem_of_lookup_2. exact Hm. }
    destruct (resolves_matchDistance _ _ _ Hrm) as [d ->]. simpl.
    destruct (mean * ratio <=? d)%float.
    + replace (length v - it)%nat with (Datatypes.S (length (erase v (Z.of_nat it)) - it))
        in Hfuel by (rewrite length_erase; lia).
      apply IH.
      * apply Forall_erase, Hres.
      * rewrite length_erase; lia.
      * lia.
    + replace (Z.of_nat it + 1) with (Z.of_nat (Datatypes.S it)) by lia.
      apply IH; [exact Hres | lia | lia].
Qed.

End KptMatchFacts.

(** Up to the moment the iterator reaches [end()] the pass does what is
    expected of it: it has gone through every match once, the matches before
    the iterator are left alone, and of the matches from the iterator on the
    kept ones remain, in order. *)
Lemma eraseOutliers_reaches_end `{V : Vision}
    (kptsPrev kptsCurr : list KeyPoint.t) (mean ratio : double) (fuel : nat) :
  forall (k : nat) (v : list DMatch.t) (it : nat),
    Forall (resolves kptsPrev kptsCurr) v ->
    (it + k = length v)%nat ->
    let kept := List.filter (keeps kptsPrev kptsCurr mean ratio) (drop it v) in
    eraseOutliers (k + fuel) kptsPrev kptsCurr mean ratio v (Z.of_nat it)
    = eraseOutliers fuel kptsPrev kptsCurr mean ratio (take it v ++ kept)
        (vend (take it v ++ kept)).
Proof.
  induction k as [|k IH]; intros v it Hres Hlen kept.
  - subst kept. rewrite drop_ge by lia. simpl.
    rewrite app_nil_r, take_ge by lia. unfold vend.
    replace it with (length v) by lia. reflexivity.
  - destruct (lookup_lt_is_Some_2 v it) as [m Hm]; [lia|].
    assert (Hrm : resolves kptsPrev kptsCurr m).
    { rewrite Forall_forall in Hres. apply Hres.
      eapply list_elem_of_lookup_2. exact Hm. }
    destruct (resolves_matchDistance _ _ _ Hrm) as [d Hd].
    assert (Hkeep : keeps kptsPrev kptsCurr mean ratio m
                    = negb (mean * ratio <=? d)%float)
      by (unfold keeps; rewrite Hd; reflexivity).
    subst kept. rewrite (drop_S v m it Hm). cbn [List.filter]. rewrite Hkeep.
    cbn [Nat.add eraseOutliers]. unfold vend at 1.
    destruct (Z.leb_spec (Z.of_nat it) (Z.of_nat (length v))) as [_|?]; [|lia].
    rewrite (deref_lookup v it m Hm). cbn [mbind outcome_bind].
    rewrite Hd. cbn [mbind outcome_bind].
    destruct (mean * ratio <=? d)%float; cbn [negb].
    + (* erased: the iterator stays *)
      rewrite (IH (erase v (Z.of_nat it)) it)
        by (try apply Forall_erase; try rewrite length_erase; trivial; lia).
      unfold erase. rewrite Nat2Z.id.
      rewrite take_app_le by (rewrite length_take; lia).
      rewrite take_take, Nat.min_id.
      rewrite drop_app_ge by (rewrite length_take; lia).
      rewrite length_take, Nat.min_l by lia.
      rewrite Nat.sub_diag, drop_0. reflexivity.
    + (* kept: the iterator moves on *)
      replace (Z.of_nat it + 1) with (Z.of_nat (Datatypes.S it)) by lia.
      rewrite (IH v (Datatypes.S it)) by (trivial; lia).
      rewrite (take_S_r v it m Hm), <- app_assoc. reflexivity.
Qed.

(** C3 (the code departs from the claim).  Whatever the region and the
    matches, as long as every match refers to existing keypoints: the
    membership step and the mean go through; the removal pass goes through
    every assigned match once and, when its iterator reaches [end()], the
    collection holds exactly the matches whose displacement is below 1.5
    times the mean; but the loop test is [it <= end()], so the pass goes on
    and dereferences [end()].  The pass reads past the end of the collection
    on every run. *)
Theorem clusterKptMatchesWithROI_reads_past_end `{V : Vision}
    (boundingBox : BoundingBox.t) (kptsPrev kptsCurr : list KeyPoint.t)
    (kptMatches : list DMatch.t) :
  Forall (resolves kptsPrev kptsCurr)
    (BoundingBox.kptMatches boundingBox ++ kptMatches) ->
  let assigned :=
    BoundingBox.kptMatches boundingBox
    ++ List.filter (inRegion (BoundingBox.roi boundingBox) kptsCurr) kptMatches in
  assignMatches (BoundingBox.roi boundingBox) kptsCurr kptMatches
    (BoundingBox.kptMatches boundingBox) = Ok assigned /\
  (exists mean,
     meanDistance kptsPrev kptsCurr assigned = Ok mean /\
     let kept :=
       List.filter (keeps kptsPrev kptsCurr mean 1.5%float) assigned in
     eraseOutliers (length assigned + 2) kptsPrev kptsCurr mean 1.5%float
       assigned 0
     = eraseOutliers 2 kptsPrev kptsCurr mean 1.5%float kept (vend kept) /\
     eraseOutliers 2 kptsPrev kptsCurr mean 1.5%float kept (vend kept)
     = Fault InvalidDeref) /\
  clusterKptMatchesWithROI boundingBox kptsPrev kptsCurr kptMatches
    = Fault InvalidDeref.
Proof.
  intros Hres assigned. apply Forall_app in Hres as [Hbox Hms].
  assert (Hassigned : Forall (resolves kptsPrev kptsCurr) assigned).
  { apply Forall_app. split; [exact Hbox|].
    rewrite Forall_forall in Hms. apply Forall_forall. intros m Hm.
    apply Hms. apply list_elem_of_In. apply list_elem_of_In in Hm.
    apply filter_In in Hm. tauto. }
  assert (Hassign : assignMatches (BoundingBox.roi boundingBox) kptsCurr
                      kptMatches (BoundingBox.kptMatches boundingBox)
                    = Ok assigned)
    by (apply (assignMatches_filter _ kptsPrev); exact Hms).
  destruct (meanDistance_defined kptsPrev kptsCurr assigned Hassigned)
    as [mean Hmean].
  assert (Hpass : eraseOutliers (length assigned + 2) kptsPrev kptsCurr mean
                    1.5%float assigned 0 = Fault InvalidDeref)
    by (apply (eraseOutliers_past_end _ _ _ _ _ assigned 0%nat Hassigned); lia).
  split; [exact Hassign|]. split.
  - exists mean. split; [exact Hmean|]. intros kept.
    assert (Hreach : eraseOutliers (length assigned + 2) kptsPrev kptsCurr
                       mean 1.5%float assigned 0
                     = eraseOutliers 2 kptsPrev kptsCurr mean 1.5%float kept
                         (vend kept))
      by exact (eraseOutliers_reaches_end kptsPrev kptsCurr mean 1.5%float 2
                  (length assigned) assigned 0%nat Hassigned eq_refl).
    split; [exact Hreach|]. rewrite <- Hreach. exact Hpass.
  - unfold clusterKptMatchesWithROI. rewrite Hassign. simpl.
    rewrite Hmean. simpl. fold assigned. rewrite Hpass. reflexivity.
Qed.

Lemma clusterKptMatchesWithROI_reads_past_end_witness :
  Forall (resolves Frames.prev5 Frames.curr5)
    (BoundingBox.kptMatches Frames.region5 ++ Frames.matches5) /\
  meanDistance (V := Reference.vision) Frames.prev5 Frames.curr5
    Frames.matches5 = Ok 20.8%float /\
  List.filter (keeps (V := Reference.vision) Frames.prev5 Frames.curr5
                 20.8 1.5)%float Frames.matches5
  = take 4 Frames.matches5 /\
  clusterKptMatchesWithROI (V := Reference.vision)
    Frames.region5 Frames.prev5 Frames.curr5 Frames.matches5
  = Fault InvalidDeref.
Proof.
  assert (H : Forall (resolves Frames.prev5 Frames.curr5)
                (BoundingBox.kptMatches Frames.region5 ++ Frames.matches5))
    by (repeat constructor; vm_compute; eauto).
  split; [exact H|].
  split; [vm_compute; reflexivity|]. split; [vm_compute; reflexivity|].
  exact (proj2 (proj2 (clusterKptMatchesWithROI_reads_past_end
                         (V := Reference.vision) Frames.region5
                         Frames.prev5 Frames.curr5
                         Frames.matches5 H))).
Defined.

(** C4 (the code departs from the claim).  When the membership step
    assigns no match to the region, nothing short-circuits: the mean is
    computed as 0 / 0, the not-a-number value, it enters the threshold
    [mean * ratio], and the removal pass starts and dereferences [begin()],
    which is [end()]. *)
Theorem clusterKptMatchesWithROI_no_match `{V : Vision}
    (boundingBox : BoundingBox.t) (kptsPrev kptsCurr : list KeyPoint.t)
    (kptMatches : list DMatch.t) :
  assignMatches (BoundingBox.roi boundingBox) kptsCurr kptMatches
    (BoundingBox.kptMatches boundingBox) = Ok [] ->
  meanDistance kptsPrev kptsCurr [] = Ok nan /\
  eraseOutliers (0 + 2) kptsPrev kptsCurr nan 1.5%float [] 0
    = Fault InvalidDeref /\
  clusterKptMatchesWithROI boundingBox kptsPrev kptsCurr kptMatches
    = Fault InvalidDeref.
Proof.
  intros Hassign. split; [reflexivity|]. split; [reflexivity|].
  unfold clusterKptMatchesWithROI. rewrite Hassign. reflexivity.
Qed.

Lemma clusterKptMatchesWithROI_no_match_witness :
  assignMatches (V := Reference.vision)
    (BoundingBox.roi Frames.farRegion) Frames.curr5
    Frames.matches5 (BoundingBox.kptMatches Frames.farRegion) = Ok [] /\
  clusterKptMatchesWithROI (V := Reference.vision)
    Frames.farRegion Frames.prev5 Frames.curr5 Frames.matches5
  = Fault InvalidDeref.
Proof.
  assert (H : assignMatches (V := Reference.vision)
                (BoundingBox.roi Frames.farRegion) Frames.curr5
                Frames.matches5 (BoundingBox.kptMatches Frames.farRegion)
              = Ok [])
    by (vm_compute; reflexivity).
  split; [exact H|].
  exact (proj2 (proj2 (clusterKptMatchesWithROI_no_match
                         (V := Reference.vision) Frames.farRegion Frames.prev5 Frames.curr5
                         Frames.matches5 H))).
Defined.

(** ** matchBoundingBoxes *)

Section MatchingFacts.
Context `{V : Vision}.

Lemma vote_nonempty (boxID : Z) (m : gmap Z Z) : vote boxID m <> ∅.
Proof.
  unfold vote. destruct (m !! boxID); apply insert_non_empty.
Qed.

Lemma resolves_deref (kptsPrev kptsCurr : list KeyPoint.t) (m : DMatch.t) :
  resolves kptsPrev kptsCurr m ->
  exists p c,
    kptsPrev !! Z.to_nat (DMatch.queryIdx m) = Some p /\
    kptsCurr !! Z.to_nat (DMatch.trainIdx m) = Some c /\
    deref kptsPrev (DMatch.queryIdx m) = Ok p /\
    deref kptsCurr (DMatch.trainIdx m) = Ok c.
Proof.
  intros [a Ha]. unfold resolve in Ha. unfold deref.
  destruct (DMatch.queryIdx m <? 0); [discriminate|].
  destruct (DMatch.trainIdx m <? 0); [discriminate|]. simpl in Ha.
  destruct (kptsPrev !! Z.to_nat (DMatch.queryIdx m)) as [p|]; [|discriminate].
  simpl in Ha.
  destruct (kptsCurr !! Z.to_nat (DMatch.trainIdx m)) as [c|]; [|discriminate].
  exists p, c. auto.
Qed.

(** With well-indexed matches the three nested loops build [tally]. *)
Lemma votes_tally (matches : list DMatch.t) (prevFrame currFrame : DataFrame.t)
    (prevBox : BoundingBox.t) :
  Forall (resolves (DataFrame.keypoints prevFrame)
            (DataFrame.keypoints currFrame)) matches ->
  votes matches prevFrame currFrame prevBox
  = Ok (tally matches prevFrame currFrame prevBox).
Proof.
  intros Hres. unfold votes, tally.
  generalize (∅ : gmap Z Z) as m.
  induction (DataFrame.boundingBoxes currFrame) as [|currBox boxes IH];
    intros m; simpl; [reflexivity|].
  enough (Hinner : forall m,
    for_each matches
      (fun match_ m =>
         prevKeyPoint ←
           deref (DataFrame.keypoints prevFrame) (DMatch.queryIdx match_);
         if contains_f (BoundingBox.roi prevBox) (KeyPoint.pt prevKeyPoint)
         then
           currKeyPoint ←
             deref (DataFrame.keypoints currFrame) (DMatch.trainIdx match_);
           if contains_f (BoundingBox.roi currBox) (KeyPoint.pt currKeyPoint)
           then Ok (vote (BoundingBox.boxID currBox) m)
           else Ok m
         else Ok m) m
    = Ok (fold_left
            (fun m match_ =>
               if castsVote prevFrame currFrame prevBox currBox match_
               then vote (BoundingBox.boxID currBox) m else m)
            matches m)).
  { rewrite Hinner. simpl. apply IH. }
  clear IH m. induction Hres as [|match_ ms Hm _ IH]; intros m;
    cbn [for_each fold_left]; [reflexivity|].
  destruct (resolves_deref _ _ _ Hm) as (p & c & Hp & Hc & -> & Hdc).
  assert (Hcv : castsVote prevFrame currFrame prevBox currBox match_
                = contains_f (BoundingBox.roi prevBox) (KeyPoint.pt p)
                  && contains_f (BoundingBox.roi currBox) (KeyPoint.pt c))
    by (unfold castsVote; rewrite Hp, Hc; reflexivity).
  rewrite Hcv. cbn [mbind outcome_bind].
  destruct (contains_f (BoundingBox.roi prevBox) (KeyPoint.pt p));
    cbn [andb mbind outcome_bind].
  - rewrite Hdc. cbn [mbind outcome_bind].
    destruct (contains_f (BoundingBox.roi currBox) (KeyPoint.pt c));
      cbn [mbind outcome_bind]; apply IH.
  - apply IH.
Qed.

Lemma fold_votes_nonempty (f : DMatch.t -> bool) (boxID : Z)
    (matches : list DMatch.t) (m : gmap Z Z) :
  m <> ∅ ->
  fold_left (fun m match_ => if f match_ then vote boxID m else m) matches m
  <> ∅.
Proof.
  revert m. induction matches as [|a ms IH]; intros m Hm; simpl; [exact Hm|].
  apply IH. destruct (f a); [apply vote_nonempty | exact Hm].
Qed.

Lemma fold_votes_empty (f : DMatch.t -> bool) (boxID : Z)
    (matches : list DMatch.t) :
  fold_left (fun m match_ => if f match_ then vote boxID m else m) matches ∅
  = ∅ <-> forall a, a ∈ matches -> f a = false.
Proof.
  induction matches as [|a ms IH]; simpl.
  - split; [intros _ a Ha; inversion Ha | reflexivity].
  - destruct (f a) eqn:Hfa.
    + split.
      * intros H. exfalso. revert H. apply fold_votes_nonempty, vote_nonempty.
      * intros H. specialize (H a (list_elem_of_here a ms)). congruence.
    + rewrite IH. split.
      * intros H b Hb. apply elem_of_cons in Hb as [->|Hb]; auto.
      * intros H b Hb. apply H. right. exact Hb.
Qed.

(** The vote table is empty exactly when no match votes for the previous
    box with any current box. *)
Lemma tally_empty (matches : list DMatch.t) (prevFrame currFrame : DataFrame.t)
    (prevBox : BoundingBox.t) :
  tally matches prevFrame currFrame prevBox = ∅ <->
  forall currBox match_,
    currBox ∈ DataFrame.boundingBoxes currFrame -> match_ ∈ matches ->
    castsVote prevFrame currFrame prevBox currBox match_ = false.
Proof.
  unfold tally.
  induction (DataFrame.boundingBoxes currFrame) as [|currBox boxes IH] using rev_ind.
  - simpl. split; [intros _ b a Hb; inversion Hb | reflexivity].
  - rewrite fold_left_app. simpl.
    set (m := fold_left _ boxes ∅) in *.
    pose proof (fold_votes_empty
                  (castsVote prevFrame currFrame prevBox currBox)
                  (BoundingBox.boxID currBox) matches) as [Hempty1 Hempty2].
    pose proof (fold_votes_nonempty
                  (castsVote prevFrame currFrame prevBox currBox)
                  (BoundingBox.boxID currBox) matches m) as Hnonempty.
    split.
    + intros H.
      assert (Hm : m = ∅).
      { destruct (decide (m = ∅)) as [|Hne]; [assumption|].
        exfalso. exact (Hnonempty Hne H). }
      rewrite Hm in H. specialize (Hempty1 H).
      intros b a Hb Ha. apply elem_of_app in Hb as [Hb|Hb].
      * apply IH; assumption.
      * apply list_elem_of_singleton in Hb as ->. apply Hempty1, Ha.
    + intros H.
      assert (Hm : m = ∅).
      { apply IH. intros b a Hb Ha. apply H; [|exact Ha].
        apply elem_of_app. left. exact Hb. }
      rewrite Hm. apply Hempty2. intros a Ha. apply H; [|exact Ha].
      apply elem_of_app. right. apply list_elem_of_singleton. reflexivity.
Qed.

(** On an empty vote table [std::max_element] returns [m.end()], and
    [bestMatch->first] dereferences it. *)
Lemma bestMatch_empty : bestMatch ∅ = Fault InvalidDeref.
Proof.
  unfold bestMatch, entries. rewrite map_to_list_empty. reflexivity.
Qed.

Lemma bestMatch_fault (m : gmap Z Z) (f : fault) :
  bestMatch m = Fault f -> f = InvalidDeref.
Proof.
  unfold bestMatch. destruct (max_element _ _); [discriminate|].
  intros [= <-]. reflexivity.
Qed.

Lemma bestMatch_nonempty (m : gmap Z Z) :
  m <> ∅ -> exists best, bestMatch m = Ok best /\ is_Some (m !! best).
Proof.
  intros Hne. unfold bestMatch.
  assert (Hperm : entries m ≡ₚ map_to_list m)
    by (unfold entries; apply merge_sort_Permutation).
  destruct (entries m) as [|e es] eqn:He.
  - apply Permutation_nil_l in Hperm.
    symmetry in Hperm. apply map_to_list_empty_iff in Hperm. contradiction.
  - simpl.
    set (best := fold_left _ es e).
    assert (Hin : best ∈ e :: es).
    { subst best. clear. revert e.
      induction es as [|x es IH]; intros e; simpl; [left|].
      destruct (e.2 <? x.2).
      - right. apply IH.
      - specialize (IH e). apply elem_of_cons in IH as [->|IH];
          [left | right; right; exact IH]. }
    exists best.1. split; [reflexivity|].
    rewrite Hperm in Hin. destruct best as [k v].
    apply elem_of_map_to_list in Hin. simpl. eauto.
Qed.

End MatchingFacts.

(** When every previous box has a vote the run completes, and the keys
    added to the map are the IDs of all the previous boxes. *)
Lemma matchBoundingBoxes_all_voted `{V : Vision} (matches : list DMatch.t)
    (bbBestMatches : gmap Z Z) (prevFrame currFrame : DataFrame.t) :
  Forall (resolves (DataFrame.keypoints prevFrame)
            (DataFrame.keypoints currFrame)) matches ->
  (forall prevBox, prevBox ∈ DataFrame.boundingBoxes prevFrame ->
     tally matches prevFrame currFrame prevBox <> ∅) ->
  exists bb',
    matchBoundingBoxes matches bbBestMatches prevFrame currFrame = Ok bb' /\
    dom bb' = dom bbBestMatches
              ∪ list_to_set (BoundingBox.boxID
                               <$> DataFrame.boundingBoxes prevFrame).
Proof.
  intros Hres. unfold matchBoundingBoxes.
  revert bbBestMatches.
  induction (DataFrame.boundingBoxes prevFrame) as [|b boxes IH];
    intros bb Hvoted; simpl.
  - exists bb. split; [reflexivity|].
    symmetry. apply (right_id_L ∅ (∪)).
  - rewrite (votes_tally _ _ _ _ Hres). simpl.
    destruct (bestMatch_nonempty (tally matches prevFrame currFrame b))
      as (best & -> & _); [apply Hvoted; left|]. simpl.
    destruct (IH (<[BoundingBox.boxID b := best]> bb)) as (bb' & -> & Hdom).
    { intros prevBox Hin. apply Hvoted. right. exact Hin. }
    exists bb'. split; [reflexivity|].
    rewrite Hdom, dom_insert_L.
    change (list_to_set (BoundingBox.boxID <$> b :: boxes))
      with ({[BoundingBox.boxID b]} ∪ list_to_set (BoundingBox.boxID <$> boxes) : gset Z).
    rewrite (comm_L (∪) {[BoundingBox.boxID b]} (dom bb)).
    rewrite <- (assoc_L (∪)). reflexivity.
Qed.

(** The example of the design document: two matches vote for current box 5
    and one for current box 7, and the previous box is mapped to 5. *)
Lemma matchBoundingBoxes_majority :
  matchBoundingBoxes (V := Reference.vision)
    Frames.frameMatches ∅ Frames.prevFrame1 Frames.currFrame
  = Ok {[ 1 := 5 ]}.
Proof. vm_compute. reflexivity. Qed.

(** C2 (the code departs from the claim).  For a previous box that no
    match votes for, the vote table is empty, [std::max_element] returns
    [m.end()], and line 350 dereferences it and stores under the box's ID
    whatever it read: the run is undefined, where the claim has the box
    skipped. *)
Theorem matchBoundingBoxes_zero_votes `{V : Vision} (matches : list DMatch.t)
    (bbBestMatches : gmap Z Z) (prevFrame currFrame : DataFrame.t)
    (prevBox : BoundingBox.t) :
  Forall (resolves (DataFrame.keypoints prevFrame)
            (DataFrame.keypoints currFrame)) matches ->
  prevBox ∈ DataFrame.boundingBoxes prevFrame ->
  (forall currBox match_,
     currBox ∈ DataFrame.boundingBoxes currFrame -> match_ ∈ matches ->
     castsVote prevFrame currFrame prevBox currBox match_ = false) ->
  votes matches prevFrame currFrame prevBox = Ok ∅ /\
  bestMatch ∅ = Fault InvalidDeref /\
  matchBoundingBoxes matches bbBestMatches prevFrame currFrame
  = Fault InvalidDeref.
Proof.
  intros Hres Hin Hzero.
  assert (Htally : tally matches prevFrame currFrame prevBox = ∅)
    by (apply tally_empty; exact Hzero).
  split; [rewrite (votes_tally _ _ _ _ Hres), Htally; reflexivity|].
  split; [apply bestMatch_empty|].
  unfold matchBoundingBoxes. revert bbBestMatches.
  induction (DataFrame.boundingBoxes prevFrame) as [|b boxes IH];
    intros bb; [inversion Hin|]. simpl.
  rewrite (votes_tally _ _ _ _ Hres). simpl.
  destruct (bestMatch (tally matches prevFrame currFrame b)) as [best|f] eqn:Hb.
  - simpl. apply elem_of_cons in Hin as [->|Hin].
    + rewrite Htally, bestMatch_empty in Hb. discriminate.
    + apply IH, Hin.
  - apply bestMatch_fault in Hb as ->. reflexivity.
Qed.

Lemma matchBoundingBoxes_zero_votes_witness :
  let prevBox := BoundingBox.mk 2 (Rect.mk 500 500 50 50) [] [] in
  Forall (resolves (DataFrame.keypoints Frames.prevFrame)
            (DataFrame.keypoints Frames.currFrame)) Frames.frameMatches /\
  prevBox ∈ DataFrame.boundingBoxes Frames.prevFrame /\
  (forall currBox match_,
     currBox ∈ DataFrame.boundingBoxes Frames.currFrame ->
     match_ ∈ Frames.frameMatches ->
     castsVote (V := Reference.vision)
       Frames.prevFrame Frames.currFrame prevBox currBox match_
     = false) /\
  matchBoundingBoxes (V := Reference.vision)
    Frames.frameMatches ∅ Frames.prevFrame Frames.currFrame
  = Fault InvalidDeref.
Proof.
  intros prevBox.
  assert (Hres : Forall (resolves (DataFrame.keypoints Frames.prevFrame)
                           (DataFrame.keypoints Frames.currFrame))
                   Frames.frameMatches)
    by (repeat constructor; vm_compute; eauto).
  assert (Hin : prevBox ∈ DataFrame.boundingBoxes Frames.prevFrame)
    by (right; left).
  assert (Hzero : forall currBox match_,
            currBox ∈ DataFrame.boundingBoxes Frames.currFrame ->
            match_ ∈ Frames.frameMatches ->
            castsVote (V := Reference.vision)
              Frames.prevFrame Frames.currFrame prevBox currBox match_
            = false).
  { intros currBox match_ Hb Hm. revert match_ Hm.
    apply (proj1 (Forall_forall _ _)). revert currBox Hb.
    apply (proj1 (Forall_forall _ _)).
    unfold Frames.currFrame, Frames.frameMatches, DataFrame.boundingBoxes.
    repeat match goal with
           | |- Forall _ (_ :: _) => apply List.Forall_cons
           | |- Forall _ [] => apply List.Forall_nil
           end; vm_compute; reflexivity. }
  split; [exact Hres|]. split; [exact Hin|]. split; [exact Hzero|].
  exact (proj2 (proj2 (matchBoundingBoxes_zero_votes (V := Reference.vision)
                         Frames.frameMatches ∅
                         Frames.prevFrame Frames.currFrame prevBox
                         Hres Hin Hzero))).
Defined.

(** ** clusterLidarWithROI *)

(** *** The projection *)

Lemma to_int_trunc (x : double) (z : Z) : to_int x = Ok z -> trunc x = Some z.
Proof.
  unfold to_int. destruct (trunc x) as [t|]; [|discriminate].
  destruct (_ && _); [|discriminate]. intros [= <-]. reflexivity.
Qed.

Lemma trunc_to_int (x : double) (z : Z) :
  trunc x = Some z -> INT_MIN <= z <= INT_MAX -> to_int x = Ok z.
Proof.
  intros Ht [Hlo Hhi]. unfold to_int. rewrite Ht.
  destruct (Z.leb_spec INT_MIN z) as [_|?]; [|lia].
  destruct (Z.leb_spec z INT_MAX) as [_|?]; [|lia]. reflexivity.
Qed.

(** C9 (as amended).  When the product is a column whose first three
    entries are y0, y1 and y2, both reads [Y.at<double>(0, 2)] fetch y2 (the
    entry at offset 2 of the buffer), and the pixel is the pair of the
    quotients y0 / y2 and y1 / y2, each converted to [int]: the fraction is
    dropped, toward zero.  The pixel exists whenever both integer parts fit
    an [int]. *)
Theorem project_truncated_quotients `{V : Vision}
    (P_rect_xx R_rect_xx RT : Mat.t) (p : LidarPoint.t)
    (y0 y1 y2 : double) (rest : list double) :
  Mat.cols (homogeneous P_rect_xx R_rect_xx RT p) = 1 ->
  Mat.data (homogeneous P_rect_xx R_rect_xx RT p) = y0 :: y1 :: y2 :: rest ->
  Mat.at_ (homogeneous P_rect_xx R_rect_xx RT p) 0 2 = Ok y2 /\
  (forall pt, project P_rect_xx R_rect_xx RT p = Ok pt ->
     trunc (y0 / y2) = Some (Point.x pt) /\
     trunc (y1 / y2) = Some (Point.y pt)) /\
  (forall px py,
     trunc (y0 / y2) = Some px -> trunc (y1 / y2) = Some py ->
     INT_MIN <= px <= INT_MAX -> INT_MIN <= py <= INT_MAX ->
     project P_rect_xx R_rect_xx RT p = Ok (Point.mk px py)).
Proof.
  intros Hcols Hdata.
  assert (H00 : Mat.at_ (homogeneous P_rect_xx R_rect_xx RT p) 0 0 = Ok y0)
    by (unfold Mat.at_; rewrite Hcols, Hdata; reflexivity).
  assert (H10 : Mat.at_ (homogeneous P_rect_xx R_rect_xx RT p) 1 0 = Ok y1)
    by (unfold Mat.at_; rewrite Hcols, Hdata; reflexivity).
  assert (H02 : Mat.at_ (homogeneous P_rect_xx R_rect_xx RT p) 0 2 = Ok y2)
    by (unfold Mat.at_; rewrite Hcols, Hdata; reflexivity).
  assert (Hproj : project P_rect_xx R_rect_xx RT p
                  = (ptx ← to_int (y0 / y2); pty ← to_int (y1 / y2);
                     Ok (Point.mk ptx pty))).
  { unfold project. fold (homogeneous P_rect_xx R_rect_xx RT p).
    rewrite H00, H02. cbn [mbind outcome_bind].
    destruct (to_int (y0 / y2)) as [ptx|f]; cbn [mbind outcome_bind];
      [|reflexivity].
    rewrite H10. reflexivity. }
  split; [exact H02|]. split.
  - intros pt. rewrite Hproj.
    destruct (to_int (y0 / y2)) as [ptx|f] eqn:Hx; [|discriminate].
    cbn [mbind outcome_bind].
    destruct (to_int (y1 / y2)) as [pty|f] eqn:Hy; [|discriminate].
    intros [= <-]. simpl. split; apply to_int_trunc; assumption.
  - intros px py Hx Hy Hbx Hby. rewrite Hproj.
    rewrite (trunc_to_int _ _ Hx Hbx). cbn [mbind outcome_bind].
    rewrite (trunc_to_int _ _ Hy Hby). reflexivity.
Qed.

Lemma project_truncated_quotients_witness :
  let Y := homogeneous (V := Reference.vision)
             Frames.P0 Frames.I4 Frames.I4 Frames.point332 in
  Mat.cols Y = 1 /\
  Mat.data Y = [3; 3; 2]%float /\
  trunc (3 / 2)%float = Some 1 /\
  project (V := Reference.vision)
    Frames.P0 Frames.I4 Frames.I4 Frames.point332 = Ok (Point.mk 1 1).
Proof.
  intros Y.
  assert (Hcols : Mat.cols Y = 1) by (vm_compute; reflexivity).
  assert (Hdata : Mat.data Y = [3; 3; 2]%float) by (vm_compute; reflexivity).
  assert (Htrunc : trunc (3 / 2)%float = Some 1) by (vm_compute; reflexivity).
  split; [exact Hcols|]. split; [exact Hdata|]. split; [exact Htrunc|].
  refine (proj2 (proj2 (project_truncated_quotients (V := Reference.vision)
            Frames.P0 Frames.I4 Frames.I4 Frames.point332
            3%float 3%float 2%float [] Hcols Hdata)) 1 1 Htrunc Htrunc _ _);
    unfold INT_MIN, INT_MAX; lia.
Defined.

(** C9 (counterexample to the claim as stated).  With a projection chain
    that leaves the coordinates alone, the product for the point (3, 3, 2)
    is (3, 3, 2) and the quotients are 1.5 and 1.5, but the pixel is
    (1, 1): a [cv::Point] has integer coordinates. *)
Lemma project_not_the_quotients :
  ~ pixelIsQuotient (V := Reference.vision)
      Frames.P0 Frames.I4 Frames.I4 Frames.point332.
Proof.
  intros H.
  destruct (H (Point.mk 1 1) 3%float 3%float 2%float []) as [Hx _].
  - vm_compute. reflexivity.
  - vm_compute. reflexivity.
  - apply (f_equal (fun x => (x =? 1)%float)) in Hx.
    vm_compute in Hx. discriminate.
Qed.

(** *** The association of the points to the boxes *)

Lemma for_range_elements {A S} (v : list A) (body : A -> S -> outcome S)
    (s : S) :
  for_range v (fun _ a s => body a s) s = for_each v body s.
Proof.
  unfold for_range, vend.
  rewrite (for_iter_seqZ _ (length v) _ 0 s) by lia.
  change 0 with (Z.of_nat 0).
  rewrite (for_each_offsets v body (length v) 0 s) by lia.
  rewrite drop_0, take_ge by lia. reflexivity.
Qed.

Lemma elem_of_zip_offsets {A} (v : list A) (i : Z) (a : A) :
  (i, a) ∈ zip (seqZ 0 (vend v)) v <->
  exists k : nat, i = Z.of_nat k /\ v !! k = Some a.
Proof.
  unfold vend. rewrite list_elem_of_lookup. split.
  - intros [k Hk]. apply lookup_zip_with_Some in Hk
      as (i' & a' & [= -> ->] & Hi & Ha).
    apply lookup_seqZ in Hi as [-> _]. exists k. split; [lia|exact Ha].
  - intros (k & -> & Ha). exists k. apply lookup_zip_with_Some.
    exists (Z.of_nat k), a. split; [reflexivity|]. split; [|exact Ha].
    apply lookup_seqZ. split; [lia|].
    apply lookup_lt_Some in Ha. lia.
Qed.

Section AssociationFacts.
Context `{V : Vision}.
Variable shrinkFactor : double.
Variables P_rect_xx R_rect_xx RT : Mat.t.

Lemma elem_of_enclosers (pt : Point.t) (boxes : list BoundingBox.t) (it : Z) :
  it ∈ enclosers shrinkFactor pt boxes <->
  exists (k : nat) (box : BoundingBox.t),
    it = Z.of_nat k /\ boxes !! k = Some box /\
    encloses shrinkFactor pt box = true.
Proof.
  unfold enclosers. rewrite list_elem_of_fmap. split.
  - intros ([i box] & -> & Hin). apply list_elem_of_In, filter_In in Hin
      as [Hin Henc].
    apply list_elem_of_In, elem_of_zip_offsets in Hin as (k & -> & Hk).
    exists k, box. auto.
  - intros (k & box & -> & Hk & Henc). exists (Z.of_nat k, box).
    split; [reflexivity|]. apply list_elem_of_In, filter_In.
    split; [|exact Henc].
    apply list_elem_of_In, elem_of_zip_offsets. exists k. auto.
Qed.

Lemma length_filter_zip {A B} (f : B -> bool) (v : list B) :
  forall l : list A,
    length l = length v ->
    length (List.filter (fun ib : A * B => f ib.2) (zip l v))
    = length (List.filter f v).
Proof.
  induction v as [|b v IH]; intros [|a l] Hlen; try discriminate;
    [reflexivity|].
  simpl. destruct (f b); simpl; rewrite IH by (simpl in Hlen; lia);
    reflexivity.
Qed.

Lemma length_enclosers (pt : Point.t) (boxes : list BoundingBox.t) :
  length (enclosers shrinkFactor pt boxes)
  = enclosingCount shrinkFactor pt boxes.
Proof.
  unfold enclosers, enclosingCount. rewrite length_fmap.
  apply length_filter_zip. unfold vend. rewrite length_seqZ. lia.
Qed.

(** Lines 33-49 collect the offsets of the enclosing boxes. *)
Lemma enclosingBoxes_enclosers (pt : Point.t) (boxes : list BoundingBox.t) :
  Forall (shrinks shrinkFactor) boxes ->
  enclosingBoxes boxes shrinkFactor pt = Ok (enclosers shrinkFactor pt boxes).
Proof.
  intros Hsh. unfold enclosingBoxes, enclosers.
  rewrite for_range_for_each.
  assert (Hzip : Forall (fun ib : Z * BoundingBox.t => shrinks shrinkFactor ib.2)
                   (zip (seqZ 0 (vend boxes)) boxes)).
  { apply Forall_forall. intros [i b] Hin.
    apply elem_of_zip_offsets in Hin as (k & _ & Hk).
    rewrite Forall_forall in Hsh. apply Hsh.
    eapply list_elem_of_lookup_2. exact Hk. }
  enough (Hacc : forall acc,
    for_each (zip (seqZ 0 (vend boxes)) boxes)
      (fun (p : Z * BoundingBox.t) enclosing =>
         smaller ← smallerBox shrinkFactor (BoundingBox.roi p.2);
         if Rect.contains smaller pt then Ok (enclosing ++ [p.1])
         else Ok enclosing) acc
    = Ok (acc ++ (fst <$> List.filter
                    (fun ib : Z * BoundingBox.t => encloses shrinkFactor pt ib.2)
                    (zip (seqZ 0 (vend boxes)) boxes))))
    by exact (Hacc []).
  induction Hzip as [|[i b] l [r Hr] _ IH]; intros acc; simpl.
  - rewrite app_nil_r. reflexivity.
  - simpl in Hr. rewrite Hr. simpl. unfold encloses at 1. rewrite Hr.
    destruct (Rect.contains r pt); simpl; rewrite IH.
    + rewrite <- app_assoc. reflexivity.
    + reflexivity.
Qed.


Lemma encloses_roi (pt : Point.t) (b c : BoundingBox.t) :
  BoundingBox.roi b = BoundingBox.roi c ->
  encloses shrinkFactor pt b = encloses shrinkFactor pt c.
Proof. unfold encloses. intros ->. reflexivity. Qed.

Lemma enclosingCount_roi (pt : Point.t) (bs cs : list BoundingBox.t) :
  BoundingBox.roi <$> bs = BoundingBox.roi <$> cs ->
  enclosingCount shrinkFactor pt bs = enclosingCount shrinkFactor pt cs.
Proof.
  unfold enclosingCount. revert cs.
  induction bs as [|b bs IH]; intros [|c cs] Hroi; try discriminate;
    [reflexivity|].
  injection Hroi as Hbc Hroi. simpl.
  rewrite (encloses_roi pt b c Hbc).
  destruct (encloses shrinkFactor pt c); simpl; rewrite (IH cs Hroi);
    reflexivity.
Qed.

Lemma shrinks_roi (bs cs : list BoundingBox.t) :
  BoundingBox.roi <$> bs = BoundingBox.roi <$> cs ->
  Forall (shrinks shrinkFactor) bs -> Forall (shrinks shrinkFactor) cs.
Proof.
  revert cs. induction bs as [|b bs IH]; intros [|c cs] Hroi Hsh;
    try discriminate; [constructor|].
  injection Hroi as Hbc Hroi. apply Forall_cons in Hsh as [Hb Hbs].
  constructor; [|exact (IH cs Hroi Hbs)].
  unfold shrinks in *. rewrite <- Hbc. exact Hb.
Qed.

(** One round of the loop over the points: the point goes to the box whose
    shrunk rectangle contains its pixel when that box is the only such box
    of the frame, and to no box otherwise. *)
Lemma associate_unique (p : LidarPoint.t) (pt : Point.t)
    (boxes : list BoundingBox.t) :
  Forall (shrinks shrinkFactor) boxes ->
  project P_rect_xx R_rect_xx RT p = Ok pt ->
  associate shrinkFactor P_rect_xx R_rect_xx RT p boxes
  = Ok (imap (fun (_ : nat) box =>
                if encloses shrinkFactor pt box
                   && (enclosingCount shrinkFactor pt boxes =? 1)%nat
                then BoundingBox.push_lidarPoint p box else box)
          boxes).
Proof.
  intros Hsh Hpt. unfold associate.
  rewrite Hpt. cbn [mbind outcome_bind].
  rewrite (enclosingBoxes_enclosers pt boxes Hsh). cbn [mbind outcome_bind].
  pose proof (length_enclosers pt boxes) as Hcount.
  pose proof (elem_of_enclosers pt boxes) as Hmem.
  destruct (enclosers shrinkFactor pt boxes) as [|it [|it' its]] eqn:Henc;
    simpl in Hcount; rewrite <- Hcount.
  - (* no box *)
    simpl. f_equal. apply list_eq. intros j. rewrite list_lookup_imap.
    destruct (boxes !! j) as [b|]; [|reflexivity]. simpl.
    rewrite andb_false_r. reflexivity.
  - (* one box *)
    destruct (proj1 (Hmem it) (list_elem_of_here it [])) as (k & box & -> & Hk & Hbox).
    cbn [length Z.of_nat Pos.of_succ_nat Z.eqb Pos.eqb deref].
    change (Z.of_nat 1 =? 1) with true. cbv iota.
    change (deref [Z.of_nat k] 0) with (Ok (Z.of_nat k)).
    cbn [mbind outcome_bind].
    rewrite (deref_lookup boxes k box Hk). cbn [mbind outcome_bind].
    rewrite Nat2Z.id. f_equal. apply list_eq. intros j.
    rewrite list_lookup_imap.
    destruct (decide (j = k)) as [->|Hjk].
    + rewrite list_lookup_alter_eq, Hk. simpl. rewrite Hbox. reflexivity.
    + rewrite list_lookup_alter_ne by congruence.
      destruct (boxes !! j) as [b|] eqn:Hj; [|reflexivity]. simpl.
      destruct (encloses shrinkFactor pt b) eqn:Hb; [|reflexivity].
      exfalso. apply Hjk.
      assert (Hin : Z.of_nat j ∈ [Z.of_nat k]) by (apply Hmem; eauto).
      apply list_elem_of_singleton in Hin. lia.
  - (* two boxes or more *)
    replace (Z.of_nat (length (it :: it' :: its)) =? 1) with false
      by (symmetry; apply Z.eqb_neq; simpl length; lia).
    f_equal. apply list_eq. intros j. rewrite list_lookup_imap.
    destruct (boxes !! j) as [b|]; [|reflexivity]. simpl.
    rewrite andb_false_r. reflexivity.
Qed.

End AssociationFacts.

Lemma extend_nil (box : BoundingBox.t) : extend box [] = box.
Proof. destruct box. unfold extend. simpl. rewrite app_nil_r. reflexivity. Qed.

Lemma extend_push (box : BoundingBox.t) (p : LidarPoint.t)
    (ps : list LidarPoint.t) :
  extend (BoundingBox.push_lidarPoint p box) ps = extend box (p :: ps).
Proof.
  destruct box. unfold extend, BoundingBox.push_lidarPoint. simpl.
  rewrite <- app_assoc. reflexivity.
Qed.

Lemma roi_imap_push (g : nat -> BoundingBox.t -> bool) (p : LidarPoint.t)
    (boxes : list BoundingBox.t) :
  BoundingBox.roi
    <$> imap (fun k box => if g k box then BoundingBox.push_lidarPoint p box
                           else box) boxes
  = BoundingBox.roi <$> boxes.
Proof.
  apply list_eq. intros j. rewrite !list_lookup_fmap, list_lookup_imap.
  destruct (boxes !! j) as [b|]; [|reflexivity]. simpl.
  destruct (g j b); reflexivity.
Qed.

(** The loop over the points, started on boxes that differ from the boxes
    of the frame by their Lidar points only. *)
Lemma associate_all `{V : Vision} (shrinkFactor : double)
    (P_rect_xx R_rect_xx RT : Mat.t) (boxes : list BoundingBox.t)
    (lidarPoints : list LidarPoint.t) :
  Forall (shrinks shrinkFactor) boxes ->
  Forall (projects P_rect_xx R_rect_xx RT) lidarPoints ->
  forall cur : list BoundingBox.t,
    BoundingBox.roi <$> cur = BoundingBox.roi <$> boxes ->
    for_each lidarPoints (associate shrinkFactor P_rect_xx R_rect_xx RT) cur
    = Ok (imap (fun k box =>
                  extend box
                    (List.filter
                       (assignedTo shrinkFactor P_rect_xx R_rect_xx RT boxes k)
                       lidarPoints))
            cur).
Proof.
  intros Hsh Hproj.
  induction Hproj as [|p ps [pt Hpt] _ IH]; intros cur Hroi; simpl.
  - f_equal. apply list_eq. intros j. rewrite list_lookup_imap.
    destruct (cur !! j) as [c|]; [|reflexivity]. simpl.
    rewrite extend_nil. reflexivity.
  - rewrite (associate_unique shrinkFactor P_rect_xx R_rect_xx RT p pt cur)
      by first [exact Hpt
               | eapply shrinks_roi; [symmetry; exact Hroi|exact Hsh]].
    cbn [mbind outcome_bind].
    rewrite IH by (rewrite roi_imap_push; exact Hroi).
    f_equal. apply list_eq. intros j. rewrite !list_lookup_imap.
    destruct (cur !! j) as [c|] eqn:Hc; [|reflexivity]. simpl. f_equal.
    assert (Hb : exists b, boxes !! j = Some b /\
                           BoundingBox.roi c = BoundingBox.roi b).
    { apply (f_equal (fun l => l !! j)) in Hroi.
      rewrite !list_lookup_fmap, Hc in Hroi. simpl in Hroi.
      destruct (boxes !! j) as [b|]; [|discriminate].
      injection Hroi as Hroi. eauto. }
    destruct Hb as (b & Hb & Hcb).
    unfold assignedTo at 2. rewrite Hpt, Hb.
    rewrite <- (encloses_roi shrinkFactor pt c b Hcb).
    rewrite <- (enclosingCount_roi shrinkFactor pt cur boxes Hroi).
    destruct (encloses shrinkFactor pt c
              && (enclosingCount shrinkFactor pt cur =? 1)%nat).
    + apply extend_push.
    + reflexivity.
Qed.


(** *** The shrunk rectangle *)







(** ** computeTTCLidar *)

(** The loops of lines 287-301 compute the minimum, from 1e9 down, of the
    forward distances of the points within 2.0 of the centreline. *)
Lemma closestInLane_minForward (points : list PointXYZ.t) (minX : double) :
  closestInLane 4 points minX
  = fold_left fmin (PointXYZ.x <$> inLane points) minX.
Proof.
  unfold closestInLane, inLane. change (4 / 2)%float with 2%float.
  revert minX. induction points as [|p ps IH]; intros minX; [reflexivity|].
  cbn [fold_left List.filter].
  destruct (fabs (PointXYZ.y p) <? 2)%float.
  - rewrite fmap_cons. cbn [fold_left]. apply IH.
  - apply IH.
Qed.

Lemma Permutation_three {A} (a b c : A) (xs : list A) :
  xs ≡ₚ [a; b; c] ->
  xs = [a; b; c] \/ xs = [a; c; b] \/ xs = [b; a; c] \/
  xs = [b; c; a] \/ xs = [c; a; b] \/ xs = [c; b; a].
Proof.
  intros Hperm.
  assert (Hin : a ∈ xs) by (rewrite Hperm; left).
  apply list_elem_of_split in Hin as (l1 & l2 & ->).
  rewrite <- Permutation_middle in Hperm.
  apply Permutation_cons_inv in Hperm.
  symmetry in Hperm. apply Permutation_length_2_inv in Hperm.
  destruct l1 as [|x [|y [|z l1]]]; simpl in Hperm;
    destruct Hperm as [Hl|Hl]; simplify_eq/=; auto 10.
Qed.

(** C8.  Once both frames are clustered, the estimator returns
    minXCurr / ((minXPrev - minXCurr) / dT) with dT = 1 / frameRate, where
    minXPrev and minXCurr are the minimum forward distances of the clustered
    points within 2.0 of the centreline of their frame: no such point is
    closer, and the value is the forward distance of one of them, or the
    1e9 the code starts from.  In particular, when the in-lane points are at
    x = 10.0, 10.2, 10.1 in the previous frame and at x = 9.0, 9.1, 9.05 in
    the current one (as binary32 values, in any order) and the frame rate is
    10, it returns 0.9. *)
Theorem computeTTCLidar_closest_in_lane `{V : Vision}
    (lidarPointsPrev lidarPointsCurr : list LidarPoint.t)
    (clusterPrevPts clusterCurrPts : list PointXYZ.t) :
  clustering lidarPointsPrev (fl32 0.05) 30 25000 = Ok clusterPrevPts ->
  clustering lidarPointsCurr (fl32 0.05) 30 25000 = Ok clusterCurrPts ->
  let xsPrev := PointXYZ.x <$> inLane clusterPrevPts in
  let xsCurr := PointXYZ.x <$> inLane clusterCurrPts in
  let minXPrev := minForward xsPrev in
  let minXCurr := minForward xsCurr in
  (forall frameRate : double,
     let dT := (1 / frameRate)%float in
     computeTTCLidar lidarPointsPrev lidarPointsCurr frameRate
     = Ok (minXCurr / ((minXPrev - minXCurr) / dT))%float) /\
  (lowerBound minXPrev xsPrev /\
   (minXPrev = 1e9%float \/ minXPrev ∈ xsPrev)) /\
  (lowerBound minXCurr xsCurr /\
   (minXCurr = 1e9%float \/ minXCurr ∈ xsCurr)) /\
  (xsPrev ≡ₚ fl32 <$> [10; 10.2; 10.1]%float ->
   xsCurr ≡ₚ fl32 <$> [9; 9.1; 9.05]%float ->
   computeTTCLidar lidarPointsPrev lidarPointsCurr 10 = Ok 0.9%float).
Proof.
  intros Hprev Hcurr xsPrev xsCurr minXPrev minXCurr.
  assert (Hgen : forall frameRate : double,
    computeTTCLidar lidarPointsPrev lidarPointsCurr frameRate
    = Ok (minXCurr / ((minXPrev - minXCurr) / (1 / frameRate)))%float).
  { intros frameRate. unfold computeTTCLidar. rewrite Hprev, Hcurr.
    cbn [mbind outcome_bind]. unfold ttcFromClusters.
    rewrite !closestInLane_minForward. reflexivity. }
  assert (Hstart : ordered 1e9%float) by reflexivity.
  split; [exact Hgen|].
  split; [split; [apply fold_fmin_lower_bound, Hstart
                 | apply fold_fmin_attained]|].
  split; [split; [apply fold_fmin_lower_bound, Hstart
                 | apply fold_fmin_attained]|].
  intros Hp Hc. rewrite Hgen. f_equal.
  subst minXPrev minXCurr.
  apply Permutation_three in Hp, Hc.
  destruct Hp as [-> | [-> | [-> | [-> | [-> | ->]]]]];
    destruct Hc as [-> | [-> | [-> | [-> | [-> | ->]]]]];
    vm_compute; reflexivity.
Qed.

Lemma computeTTCLidar_closest_in_lane_witness :
  exists clusterPrevPts clusterCurrPts,
    clustering (V := Reference.vision) Frames.prevCloud (fl32 0.05) 30 25000
      = Ok clusterPrevPts /\
    clustering (V := Reference.vision) Frames.currCloud (fl32 0.05) 30 25000
      = Ok clusterCurrPts /\
    length clusterPrevPts = 30%nat /\ length clusterCurrPts = 30%nat /\
    PointXYZ.x <$> inLane clusterPrevPts = fl32 <$> [10; 10.2; 10.1]%float /\
    PointXYZ.x <$> inLane clusterCurrPts = fl32 <$> [9; 9.1; 9.05]%float /\
    computeTTCLidar (V := Reference.vision) Frames.prevCloud Frames.currCloud
      10 = Ok 0.9%float.
Proof.
  pose (cp := match clustering (V := Reference.vision) Frames.prevCloud
                      (fl32 0.05) 30 25000 with
              | Ok c => c | Fault _ => [] end).
  pose (cc := match clustering (V := Reference.vision) Frames.currCloud
                      (fl32 0.05) 30 25000 with
              | Ok c => c | Fault _ => [] end).
  assert (Hprev : clustering (V := Reference.vision) Frames.prevCloud
                    (fl32 0.05) 30 25000 = Ok cp)
    by (vm_compute; reflexivity).
  assert (Hcurr : clustering (V := Reference.vision) Frames.currCloud
                    (fl32 0.05) 30 25000 = Ok cc)
    by (vm_compute; reflexivity).
  assert (Hxp : PointXYZ.x <$> inLane cp = fl32 <$> [10; 10.2; 10.1]%float)
    by (vm_compute; reflexivity).
  assert (Hxc : PointXYZ.x <$> inLane cc = fl32 <$> [9; 9.1; 9.05]%float)
    by (vm_compute; reflexivity).
  exists cp, cc.
  split; [exact Hprev|]. split; [exact Hcurr|].
  split; [vm_compute; reflexivity|]. split; [vm_compute; reflexivity|].
  split; [exact Hxp|]. split; [exact Hxc|].
  destruct (computeTTCLidar_closest_in_lane (V := Reference.vision)
              Frames.prevCloud Frames.currCloud cp cc Hprev Hcurr)
    as (_ & _ & _ & Hexample).
  apply Hexample; [rewrite Hxp | rewrite Hxc]; reflexivity.
Defined.

(** ** The bounds on the rounds are never reached *)

Lemma withinFuel_bind {A B} (m : outcome A) (k : A -> outcome B) :
  withinFuel m -> (forall a, withinFuel (k a)) -> withinFuel (m ≫= k).
Proof.
  unfold withinFuel. intros Hm Hk. destruct m as [a|f]; simpl; [apply Hk|].
  intros [= ->]. apply Hm. reflexivity.
Qed.

Lemma withinFuel_deref {A} (v : list A) (it : Z) : withinFuel (deref v it).
Proof.
  unfold withinFuel, deref. destruct (it <? 0); [discriminate|].
  destruct (v !! Z.to_nat it); discriminate.
Qed.

Lemma withinFuel_vec_at {A} (v : list A) (i : Z) : withinFuel (vec_at v i).
Proof.
  unfold withinFuel, vec_at. destruct (i <? 0); [discriminate|].
  destruct (v !! Z.to_nat i); discriminate.
Qed.

Lemma withinFuel_to_int (x : double) : withinFuel (to_int x).
Proof.
  unfold withinFuel, to_int. destruct (trunc x); [|discriminate].
  destruct (_ && _); discriminate.
Qed.

Lemma withinFuel_for_each {A S} (v : list A) (body : A -> S -> outcome S) :
  (forall a s, withinFuel (body a s)) ->
  forall s, withinFuel (for_each v body s).
Proof.
  intros Hbody. induction v as [|a v IH]; intros s; simpl; [discriminate|].
  apply withinFuel_bind; [apply Hbody | exact IH].
Qed.

Lemma withinFuel_for_range {A S} (v : list A)
    (body : Z -> A -> S -> outcome S) :
  (forall it a s, withinFuel (body it a s)) ->
  forall s, withinFuel (for_range v body s).
Proof.
  intros Hbody s. rewrite for_range_for_each.
  apply withinFuel_for_each. intros [it a] s'. apply Hbody.
Qed.

Ltac within_fuel :=
  repeat first
    [ apply withinFuel_deref | apply withinFuel_vec_at
    | apply withinFuel_to_int
    | apply withinFuel_bind; [|intros ?]
    | match goal with
      | |- withinFuel (if ?c then _ else _) => destruct c
      | |- withinFuel (Ok _) => discriminate
      end ].

Section Termination.
Context `{V : Vision}.

Lemma withinFuel_collectDistRatios (kptsPrev kptsCurr : list KeyPoint.t)
    (kptMatches : list DMatch.t) :
  withinFuel (collectDistRatios kptsPrev kptsCurr kptMatches).
Proof.
  destruct kptMatches as [|m0 ms]; [discriminate|].
  unfold collectDistRatios, vend. cbn [length].
  replace (Z.of_nat (Datatypes.S (length ms)) - 1)
    with (0 + Z.of_nat (length ms)) by lia.
  rewrite for_iter_seqZ by lia.
  apply withinFuel_for_each. intros it1 distRatios. within_fuel.
  unfold innerLoop, vend. cbn [length].
  replace (Z.of_nat (Datatypes.S (length ms)))
    with (0 + 1 + Z.of_nat (length ms)) by lia.
  rewrite for_iter_seqZ by lia.
  apply withinFuel_for_each. intros it2 distRatios'. within_fuel.
Qed.

Lemma withinFuel_computeTTCCamera (kptsPrev kptsCurr : list KeyPoint.t)
    (kptMatches : list DMatch.t) (frameRate : double) :
  withinFuel (computeTTCCamera kptsPrev kptsCurr kptMatches frameRate).
Proof.
  unfold computeTTCCamera. apply withinFuel_bind;
    [apply withinFuel_collectDistRatios|].
  intros distRatios. unfold ttcFromRatios, medianDistRatio. within_fuel.
Qed.

Lemma withinFuel_eraseOutliers (kptsPrev kptsCurr : list KeyPoint.t)
    (mean ratio : double) :
  forall (fuel : nat) (v : list DMatch.t) (it : nat),
    (it <= length v)%nat ->
    (length v - it < fuel)%nat ->
    withinFuel
      (eraseOutliers fuel kptsPrev kptsCurr mean ratio v (Z.of_nat it)).
Proof.
  induction fuel as [|fuel IH]; intros v it Hit Hfuel; [lia|].
  simpl. unfold vend.
  destruct (Z.leb_spec (Z.of_nat it) (Z.of_nat (length v))) as [_|Hgt]; [|lia].
  destruct (decide (it = length v)) as [->|Hne].
  - pose proof (deref_vend v) as He. unfold vend in He. rewrite He.
    discriminate.
  - destruct (lookup_lt_is_Some_2 v it) as [m Hm]; [lia|].
    rewrite (deref_lookup v it m Hm). cbn [mbind outcome_bind].
    unfold matchDistance. within_fuel.
    + replace (length v - it)%nat
        with (Datatypes.S (length (erase v (Z.of_nat it)) - it))
        in Hfuel by (rewrite length_erase; lia).
      apply IH; [rewrite length_erase; lia | lia].
    + replace (Z.of_nat it + 1) with (Z.of_nat (Datatypes.S it)) by lia.
      apply IH; lia.
Qed.

Lemma withinFuel_clusterKptMatchesWithROI (boundingBox : BoundingBox.t)
    (kptsPrev kptsCurr : list KeyPoint.t) (kptMatches : list DMatch.t) :
  withinFuel
    (clusterKptMatchesWithROI boundingBox kptsPrev kptsCurr kptMatches).
Proof.
  unfold clusterKptMatchesWithROI.
  apply withinFuel_bind.
  { unfold assignMatches. apply withinFuel_for_each. intros m s. within_fuel. }
  intros assigned. apply withinFuel_bind.
  { unfold meanDistance. apply withinFuel_bind; [|intros ?; discriminate].
    apply withinFuel_for_each. intros m s. unfold matchDistance. within_fuel. }
  intros mean. apply withinFuel_bind; [|intros ?; discriminate].
  apply (withinFuel_eraseOutliers _ _ _ _ _ assigned 0%nat); lia.
Qed.

Lemma withinFuel_clusterLidarWithROI (boundingBoxes : list BoundingBox.t)
    (lidarPoints : list LidarPoint.t) (shrinkFactor : double)
    (P_rect_xx R_rect_xx RT : Mat.t) :
  withinFuel
    (clusterLidarWithROI boundingBoxes lidarPoints shrinkFactor
       P_rect_xx R_rect_xx RT).
Proof.
  unfold clusterLidarWithROI. apply withinFuel_for_range.
  intros _ p boxes. unfold associate. apply withinFuel_bind.
  { unfold project, Mat.at_. within_fuel. }
  intros pt. apply withinFuel_bind.
  { unfold enclosingBoxes. apply withinFuel_for_range.
    intros it2 box enclosing. unfold smallerBox. within_fuel. }
  intros enclosing. within_fuel.
Qed.

End Termination.

(** * Further properties of the routines *)

(** ** computeTTCCamera: lookups, number of ratios, small objects *)

Section CameraLookups.
Context `{V : Vision}.

Lemma resolve_None (kptsPrev kptsCurr : list KeyPoint.t) (m : DMatch.t) :
  resolve kptsPrev kptsCurr m = None ->
  vec_at kptsCurr (DMatch.trainIdx m) = Fault OutOfRange \/
  exists c, vec_at kptsCurr (DMatch.trainIdx m) = Ok c /\
            vec_at kptsPrev (DMatch.queryIdx m) = Fault OutOfRange.
Proof.
  unfold resolve, vec_at.
  destruct (DMatch.trainIdx m <? 0); [left; reflexivity|].
  destruct (kptsCurr !! Z.to_nat (DMatch.trainIdx m)) as [c|];
    [|left; reflexivity].
  right. exists c. split; [reflexivity|].
  destruct (DMatch.queryIdx m <? 0); [reflexivity|]. simpl in H.
  destruct (kptsPrev !! Z.to_nat (DMatch.queryIdx m)); [discriminate|].
  reflexivity.
Qed.

(** The inner loop throws as soon as it meets a match with an index
    outside the keypoint lists. *)
Lemma innerLoop_throws (kptsPrev kptsCurr : list KeyPoint.t)
    (m0 : DMatch.t) (ms : list DMatch.t) (kpOuterPrev kpOuterCurr : KeyPoint.t)
    (acc : list double) :
  Exists (fun m => resolve kptsPrev kptsCurr m = None) ms ->
  innerLoop kptsPrev kptsCurr (m0 :: ms) kpOuterPrev kpOuterCurr acc
  = Fault OutOfRange.
Proof.
  intros Hex. unfold innerLoop, vend. cbn [length].
  replace (Z.of_nat (Datatypes.S (length ms)))
    with (0 + 1 + Z.of_nat (length ms)) by lia.
  rewrite for_iter_seqZ by lia.
  change (0 + 1) with (Z.of_nat 1).
  rewrite (for_each_offsets (m0 :: ms)
             (fun m2 distRatios =>
                kpInnerCurr ← vec_at kptsCurr (DMatch.trainIdx m2);
                kpInnerPrev ← vec_at kptsPrev (DMatch.queryIdx m2);
                if (DBL_EPSILON
                      <? norm_diff (KeyPoint.pt kpOuterPrev)
                           (KeyPoint.pt kpInnerPrev))%float
                   && (100
                       <=? norm_diff (KeyPoint.pt kpOuterCurr)
                             (KeyPoint.pt kpInnerCurr))%float
                then Ok (distRatios
                           ++ [norm_diff (KeyPoint.pt kpOuterCurr)
                                 (KeyPoint.pt kpInnerCurr)
                               / norm_diff (KeyPoint.pt kpOuterPrev)
                                   (KeyPoint.pt kpInnerPrev)]%float)
                else Ok distRatios))
    by (simpl; lia).
  simpl drop. rewrite !drop_0, take_ge by lia.
  revert acc. induction Hex as [m ms Hm|m ms _ IH]; intros acc;
    cbn [for_each].
  - destruct (resolve_None _ _ _ Hm) as [->|(c & -> & ->)]; reflexivity.
  - destruct (resolve kptsPrev kptsCurr m) as [a|] eqn:Hm.
    + destruct (resolve_vec_at _ _ _ _ Hm) as [-> ->].
      cbn [mbind outcome_bind]. destruct (_ && _); apply IH.
    + destruct (resolve_None _ _ _ Hm) as [->|(c & -> & ->)]; reflexivity.
Qed.

(** With two matches or more, the first round of the outer loop looks up
    every match. *)
Lemma collectDistRatios_throws (kptsPrev kptsCurr : list KeyPoint.t)
    (kptMatches : list DMatch.t) :
  (2 <= length kptMatches)%nat ->
  Exists (fun m => resolve kptsPrev kptsCurr m = None) kptMatches ->
  collectDistRatios kptsPrev kptsCurr kptMatches = Fault OutOfRange.
Proof.
  intros Hlen Hex.
  destruct kptMatches as [|m0 [|m1 ms]]; simpl in Hlen; try lia.
  unfold collectDistRatios, vend.
  cbn [length for_iter].
  destruct (Z.eqb_spec 0 (Z.of_nat (Datatypes.S (Datatypes.S (length ms))) - 1))
    as [E|_]; [lia|].
  change (deref (m0 :: m1 :: ms) 0) with (Ok m0). cbn [mbind outcome_bind].
  destruct (resolve kptsPrev kptsCurr m0) as [a|] eqn:Hm0.
  - destruct (resolve_vec_at _ _ _ _ Hm0) as [-> ->].
    cbn [mbind outcome_bind].
    rewrite (innerLoop_throws kptsPrev kptsCurr m0 (m1 :: ms)); [reflexivity|].
    apply Exists_cons in Hex as [Hex|Hex]; [congruence|exact Hex].
  - destruct (resolve_None _ _ _ Hm0) as [->|(c & -> & ->)]; reflexivity.
Qed.

Lemma resolve_all_or_not (kptsPrev kptsCurr : list KeyPoint.t)
    (kptMatches : list DMatch.t) :
  (exists rs, mapM (resolve kptsPrev kptsCurr) kptMatches = Some rs) \/
  Exists (fun m => resolve kptsPrev kptsCurr m = None) kptMatches.
Proof.
  destruct (Forall_Exists_dec (is_Some ∘ resolve kptsPrev kptsCurr)
              (fun m => resolve kptsPrev kptsCurr m = None)
              (fun m => match resolve kptsPrev kptsCurr m as o
                              return {is_Some o} + {o = None} with
                        | Some a => left (ex_intro _ a eq_refl)
                        | None => right eq_refl
                        end) kptMatches) as [Hall|Hex].
  - left. apply mapM_is_Some in Hall as [rs Hrs]. eauto.
  - right. exact Hex.
Qed.

Lemma length_pairRatio (a b : KeyPoint.t * KeyPoint.t) :
  (length (pairRatio a b) <= 1)%nat.
Proof. unfold pairRatio. destruct (_ && _); simpl; lia. Qed.

Lemma length_flat_map_le {A B} (f : A -> list B) (c : nat) (l : list A) :
  (forall x, (length (f x) <= c)%nat) ->
  (length (flat_map f l) <= length l * c)%nat.
Proof.
  intros Hf. induction l as [|x l IH]; simpl; [lia|].
  rewrite length_app. specialize (Hf x). lia.
Qed.

Lemma length_gridRatios (rs : list (KeyPoint.t * KeyPoint.t)) :
  (length (gridRatios rs) <= (length rs - 1) * (length rs - 1))%nat.
Proof.
  unfold gridRatios.
  etransitivity;
    [apply (length_flat_map_le _ (length rs - 1))|].
  - intros a. etransitivity;
      [apply (length_flat_map_le _ 1), length_pairRatio|].
    rewrite length_drop. lia.
  - rewrite length_take. nia.
Qed.

End CameraLookups.

(** X1.  As soon as the list holds two matches, a match whose [queryIdx] or
    [trainIdx] lies outside the keypoint lists makes [vector::at] throw
    [std::out_of_range] in the first round of the outer loop, whatever its
    place in the list: no ratio is returned, and no invalid read happens. *)
Theorem collectDistRatios_out_of_range `{V : Vision}
    (kptsPrev kptsCurr : list KeyPoint.t) (kptMatches : list DMatch.t)
    (frameRate : double) :
  (2 <= length kptMatches)%nat ->
  Exists (fun m => resolve kptsPrev kptsCurr m = None) kptMatches ->
  collectDistRatios kptsPrev kptsCurr kptMatches = Fault OutOfRange /\
  computeTTCCamera kptsPrev kptsCurr kptMatches frameRate = Fault OutOfRange.
Proof.
  intros Hlen Hex.
  pose proof (collectDistRatios_throws _ _ _ Hlen Hex) as H.
  split; [exact H|]. unfold computeTTCCamera. rewrite H. reflexivity.
Qed.

Lemma collectDistRatios_out_of_range_witness :
  let kptMatches := Frames.matches2 ++ [DMatch.mk 0 7] in
  (2 <= length kptMatches)%nat /\
  Exists (fun m => resolve Frames.prev2 Frames.curr2 m = None) kptMatches /\
  computeTTCCamera (V := Reference.vision) Frames.prev2 Frames.curr2
    kptMatches 10%float = Fault OutOfRange.
Proof.
  intros kptMatches.
  assert (Hlen : (2 <= length kptMatches)%nat) by (simpl; lia).
  assert (Hex : Exists (fun m => resolve Frames.prev2 Frames.curr2 m = None)
                  kptMatches)
    by (right; right; left; reflexivity).
  split; [exact Hlen|]. split; [exact Hex|].
  exact (proj2 (collectDistRatios_out_of_range (V := Reference.vision)
                  Frames.prev2 Frames.curr2 kptMatches 10%float Hlen Hex)).
Defined.

(** X2.  The loops record at most (n - 1) x (n - 1) ratios for n matches:
    one at most for each pair of an outer match (all but the last) and an
    inner match (all but the first). *)
Theorem collectDistRatios_count `{V : Vision}
    (kptsPrev kptsCurr : list KeyPoint.t) (kptMatches : list DMatch.t)
    (distRatios : list double) :
  collectDistRatios kptsPrev kptsCurr kptMatches = Ok distRatios ->
  (length distRatios
   <= (length kptMatches - 1) * (length kptMatches - 1))%nat.
Proof.
  intros Hrun.
  destruct (resolve_all_or_not kptsPrev kptsCurr kptMatches) as [[rs Hrs]|Hex].
  - destruct kptMatches as [|m0 ms]; [discriminate Hrun|].
    rewrite (collectDistRatios_grid _ _ _ rs Hrs) in Hrun by discriminate.
    injection Hrun as <-.
    apply mapM_Some, Forall2_length in Hrs. rewrite Hrs.
    apply length_gridRatios.
  - destruct kptMatches as [|m0 [|m1 ms]].
    + discriminate Hrun.
    + injection Hrun as <-. simpl. lia.
    + rewrite collectDistRatios_throws in Hrun;
        [discriminate | simpl; lia | exact Hex].
Qed.

Lemma collectDistRatios_count_witness :
  collectDistRatios (V := Reference.vision)
    Frames.prev4 Frames.curr4 Frames.matches4
  = Ok [2; 2.5; 2; 3; 2; 3; 1]%float /\
  (length [2; 2.5; 2; 3; 2; 3; 1]%float
   <= (length Frames.matches4 - 1) * (length Frames.matches4 - 1))%nat.
Proof.
  assert (Hrun : collectDistRatios (V := Reference.vision)
                   Frames.prev4 Frames.curr4 Frames.matches4
                 = Ok [2; 2.5; 2; 3; 2; 3; 1]%float)
    by (vm_compute; reflexivity).
  split; [exact Hrun|].
  exact (collectDistRatios_count (V := Reference.vision)
           Frames.prev4 Frames.curr4 Frames.matches4 _ Hrun).
Defined.

(** X3.  An object whose matched keypoints all lie within 100 pixels of one
    another in the current frame gets no camera estimate: every pair fails
    the minimum-distance test, no ratio is recorded, and TTC is the
    not-a-number value. *)
Theorem computeTTCCamera_small_object `{V : Vision}
    (kptsPrev kptsCurr : list KeyPoint.t) (kptMatches : list DMatch.t)
    (rs : list (KeyPoint.t * KeyPoint.t)) (frameRate : double) :
  kptMatches <> [] ->
  mapM (resolve kptsPrev kptsCurr) kptMatches = Some rs ->
  (forall a b, a ∈ rs -> b ∈ rs ->
     (100 <=? norm_diff (KeyPoint.pt a.2) (KeyPoint.pt b.2))%float = false) ->
  collectDistRatios kptsPrev kptsCurr kptMatches = Ok [] /\
  computeTTCCamera kptsPrev kptsCurr kptMatches frameRate = Ok nan.
Proof.
  intros Hne Hrs Hclose.
  assert (Hgrid : gridRatios rs = []).
  { unfold gridRatios.
    assert (Hinner : forall a, a ∈ rs ->
              flat_map (pairRatio a) (drop 1 rs) = []).
    { intros a Ha.
      assert (Hsub : forall b, b ∈ drop 1 rs -> b ∈ rs)
        by (intros b Hb; eapply elem_of_sublist;
            [exact Hb | apply sublist_drop]).
      induction (drop 1 rs) as [|b l IH]; [reflexivity|]. simpl.
      rewrite IH by (intros c Hc; apply Hsub; right; exact Hc).
      unfold pairRatio. rewrite (Hclose a b Ha) by (apply Hsub; left).
      rewrite andb_false_r. reflexivity. }
    assert (Hsub : forall a, a ∈ take (length rs - 1) rs -> a ∈ rs)
      by (intros a Ha; eapply elem_of_sublist;
          [exact Ha | apply sublist_take]).
    induction (take (length rs - 1) rs) as [|a l IH]; [reflexivity|]. simpl.
    rewrite Hinner by (apply Hsub; left).
    apply IH. intros c Hc. apply Hsub. right. exact Hc. }
  assert (Hrun : collectDistRatios kptsPrev kptsCurr kptMatches = Ok [])
    by (rewrite (collectDistRatios_grid _ _ _ rs Hrs Hne), Hgrid; reflexivity).
  split; [exact Hrun|]. unfold computeTTCCamera. rewrite Hrun. reflexivity.
Qed.

Lemma computeTTCCamera_small_object_witness :
  exists rs,
    Frames.matches3 <> [] /\
    mapM (resolve Frames.prevSmall Frames.currSmall) Frames.matches3 = Some rs /\
    (forall a b, a ∈ rs -> b ∈ rs ->
       (100 <=? Reference.norm_diff (KeyPoint.pt a.2) (KeyPoint.pt b.2))%float
       = false) /\
    computeTTCCamera (V := Reference.vision) Frames.prevSmall Frames.currSmall
      Frames.matches3 10%float = Ok nan.
Proof.
  pose (rs := default [] (mapM (resolve Frames.prevSmall Frames.currSmall)
                            Frames.matches3)).
  assert (Hne : Frames.matches3 <> []) by discriminate.
  assert (Hrs : mapM (resolve Frames.prevSmall Frames.currSmall) Frames.matches3
                = Some rs) by (vm_compute; reflexivity).
  assert (Hclose : forall a b, a ∈ rs -> b ∈ rs ->
            (100 <=? Reference.norm_diff (KeyPoint.pt a.2) (KeyPoint.pt b.2))%float
            = false).
  { intros a b Ha. revert b. apply (proj1 (Forall_forall _ _)).
    revert a Ha. apply (proj1 (Forall_forall _ _)).
    let v := eval vm_compute in rs in change rs with v.
    repeat match goal with
           | |- Forall _ (_ :: _) => apply List.Forall_cons
           | |- Forall _ [] => apply List.Forall_nil
           end; vm_compute; reflexivity. }
  exists rs. split; [exact Hne|]. split; [exact Hrs|]. split; [exact Hclose|].
  exact (proj2 (computeTTCCamera_small_object (V := Reference.vision)
                  Frames.prevSmall Frames.currSmall Frames.matches3 rs 10%float
                  Hne Hrs Hclose)).
Defined.

(** ** computeTTCCamera: the value taken as the median *)

Lemma rem_even (h : nat) : (Z.rem (Z.of_nat h) 2 =? 0) = Nat.even h.
Proof.
  rewrite Z.rem_mod_nonneg by lia.
  destruct (Nat.even h) eqn:Heven.
  - apply Nat.even_spec in Heven as [k ->].
    rewrite Nat2Z.inj_mul, Z.mul_comm, Z.mod_mul by lia. reflexivity.
  - rewrite <- Nat.negb_odd in Heven. apply negb_false_iff in Heven.
    apply Nat.odd_spec in Heven as [k ->].
    replace (Z.of_nat (2 * k + 1)) with (1 + Z.of_nat k * 2) by lia.
    rewrite Z.mod_add by lia. reflexivity.
Qed.

(** X4.  With two ratios or more every read of lines 217-218 is inside the
    sorted vector.  Writing h for half the count (rounded down), the value
    is the average of entries h - 1 and h when h is even and entry h when h
    is odd; it is the median of the ratios when the count is 0 or 3
    modulo 4. *)
Theorem medianDistRatio_value (distRatios : list double) :
  (2 <= length distRatios)%nat ->
  let sorted := std_sort distRatios in
  let h := (length distRatios / 2)%nat in
  exists a b,
    sorted !! (h - 1)%nat = Some a /\
    sorted !! h = Some b /\
    medianDistRatio distRatios
    = Ok (if Nat.even h then ((a + b) / 2)%float else b) /\
    ((length distRatios mod 4 = 0 \/ length distRatios mod 4 = 3)%nat ->
     median sorted = Some (if Nat.even h then ((a + b) / 2)%float else b)).
Proof.
  intros Hlen sorted h.
  pose proof (length_std_sort distRatios) as Hs. fold sorted in Hs.
  assert (Hh : (1 <= h < length distRatios)%nat).
  { subst h. split.
    - change 1%nat with (2 / 2)%nat. apply Nat.Div0.div_le_mono. exact Hlen.
    - apply Nat.div_lt; lia. }
  destruct (lookup_lt_is_Some_2 sorted (h - 1)) as [a Ha]; [lia|].
  destruct (lookup_lt_is_Some_2 sorted h) as [b Hb]; [lia|].
  exists a, b. split; [exact Ha|]. split; [exact Hb|].
  assert (Hval : medianDistRatio distRatios
                 = Ok (if Nat.even h then ((a + b) / 2)%float else b)).
  { unfold medianDistRatio. fold sorted. rewrite Hs.
    replace (Z.of_nat (length distRatios) / 2) with (Z.of_nat h)
      by (subst h; rewrite Nat2Z.inj_div; reflexivity).
    rewrite rem_even. destruct (Nat.even h).
    - replace (Z.of_nat h - 1) with (Z.of_nat (h - 1)) by lia.
      rewrite (deref_lookup sorted _ a Ha), (deref_lookup sorted _ b Hb).
      reflexivity.
    - exact (deref_lookup sorted _ b Hb). }
  split; [exact Hval|].
  intros Hmod.
  destruct (medianDistRatio_median distRatios) as (m & Hm & Hcode);
    [intros ->; simpl in Hlen; lia | exact Hmod |].
  fold sorted in Hm. rewrite Hm. rewrite Hval in Hcode.
  injection Hcode as <-. reflexivity.
Qed.

Lemma medianDistRatio_value_witness :
  (2 <= length [3; 1; 2]%float)%nat /\
  (length [3; 1; 2]%float mod 4 = 3)%nat /\
  medianDistRatio [3; 1; 2]%float = Ok 2%float /\
  median (std_sort [3; 1; 2]%float) = Some 2%float.
Proof.
  assert (Hlen : (2 <= length [3; 1; 2]%float)%nat) by (simpl; lia).
  destruct (medianDistRatio_value [3; 1; 2]%float Hlen)
    as (a & b & Ha & Hb & Hval & Hmed).
  vm_compute in Ha, Hb. injection Ha as <-. injection Hb as <-.
  split; [exact Hlen|]. split; [reflexivity|].
  split; [exact Hval|]. apply Hmed. right. reflexivity.
Defined.

(** ** matchBoundingBoxes: vote counts and the best match *)

Lemma key_le_trans : Transitive key_le.
Proof. intros a b c. unfold key_le. lia. Qed.

Lemma key_le_total : Total key_le.
Proof. intros a b. unfold key_le. lia. Qed.

Lemma entries_sorted (m : gmap Z Z) : StronglySorted key_le (entries m).
Proof.
  unfold entries.
  exact (@StronglySorted_merge_sort _ key_le _ key_le_trans key_le_total _).
Qed.

Lemma elem_of_entries (m : gmap Z Z) (k v : Z) :
  (k, v) ∈ entries m <-> m !! k = Some v.
Proof.
  unfold entries. rewrite merge_sort_Permutation.
  apply elem_of_map_to_list.
Qed.

(** [std::max_element] stops at the first maximum: what precedes it is
    smaller, what follows it is not larger. *)
Lemma max_element_first (e : Z * Z) (es : list (Z * Z)) :
  let r := fold_left
             (fun largest x : Z * Z => if largest.2 <? x.2 then x else largest)
             es e in
  exists pre post,
    e :: es = pre ++ r :: post /\
    Forall (fun x : Z * Z => x.2 < r.2) pre /\
    Forall (fun x : Z * Z => x.2 <= r.2) post.
Proof.
  induction es as [|x es IH] using rev_ind; simpl.
  - exists [], []. repeat split; constructor.
  - rewrite fold_left_app. simpl.
    destruct IH as (pre & post & Hsplit & Hpre & Hpost).
    set (r := fold_left _ es e) in *.
    destruct (Z.ltb_spec r.2 x.2) as [Hlt|Hge].
    + exists (pre ++ r :: post), []. split; [|split; [|constructor]].
      * rewrite app_comm_cons, Hsplit, <- app_assoc. reflexivity.
      * apply Forall_app. split.
        -- eapply Forall_impl; [exact Hpre|]. simpl. intros; lia.
        -- constructor; [exact Hlt|].
           eapply Forall_impl; [exact Hpost|]. simpl. intros; lia.
    + exists pre, (post ++ [x]). split; [|split; [exact Hpre|]].
      * rewrite app_comm_cons, Hsplit, <- app_assoc. reflexivity.
      * apply Forall_app. split; [exact Hpost|]. constructor; [lia|constructor].
Qed.

(** X5.  The current box recorded for a previous box has the largest vote
    count of the table, and the smallest ID among the boxes with that count:
    the table is a [std::map], gone through in increasing ID order, and
    [std::max_element] keeps the first maximum. *)
Theorem bestMatch_first_maximum (m : gmap Z Z) (best : Z) :
  bestMatch m = Ok best ->
  exists v,
    m !! best = Some v /\
    (forall k v', m !! k = Some v' -> v' <= v) /\
    (forall k v', m !! k = Some v' -> k < best -> v' < v).
Proof.
  unfold bestMatch. intros Hbest.
  pose proof (entries_sorted m) as Hsorted.
  pose proof (elem_of_entries m) as Hmem.
  destruct (entries m) as [|e es]; [discriminate|]. simpl in Hbest.
  destruct (max_element_first e es) as (pre & post & Hsplit & Hpre & Hpost).
  set (r := fold_left _ es e) in *. injection Hbest as <-.
  rewrite Hsplit in Hsorted, Hmem.
  exists r.2. split; [|split].
  - apply Hmem. destruct r. apply elem_of_app. right. left.
  - intros k v' Hk. apply Hmem, elem_of_app in Hk as [Hk|Hk].
    + rewrite Forall_forall in Hpre. specialize (Hpre _ Hk). simpl in Hpre. lia.
    + apply elem_of_cons in Hk as [Hk|Hk];
        [apply (f_equal snd) in Hk; simpl in Hk; lia|].
      rewrite Forall_forall in Hpost. exact (Hpost _ Hk).
  - intros k v' Hk Hlt. apply Hmem, elem_of_app in Hk as [Hk|Hk].
    + rewrite Forall_forall in Hpre. exact (Hpre _ Hk).
    + exfalso. apply elem_of_cons in Hk as [Hk|Hk].
      * apply (f_equal fst) in Hk. simpl in Hk. lia.
      * apply StronglySorted_app_1_r, StronglySorted_inv in Hsorted
          as [_ Hafter].
        rewrite Forall_forall in Hafter. specialize (Hafter _ Hk).
        unfold key_le in Hafter. simpl in Hafter. lia.
Qed.

Lemma bestMatch_first_maximum_witness :
  let m : gmap Z Z := {[ 7 := 2; 5 := 2; 9 := 1 ]} in
  bestMatch m = Ok 5 /\
  exists v,
    m !! 5 = Some v /\
    (forall k v', m !! k = Some v' -> v' <= v) /\
    (forall k v', m !! k = Some v' -> k < 5 -> v' < v).
Proof.
  intros m.
  assert (Hbest : bestMatch m = Ok 5) by (vm_compute; reflexivity).
  split; [exact Hbest|].
  exact (bestMatch_first_maximum m 5 Hbest).
Defined.

Section VoteFacts.
Context `{V : Vision}.

Lemma lookup_vote (boxID k : Z) (m : gmap Z Z) :
  vote boxID m !! k
  = if decide (k = boxID) then Some (default 0 (m !! boxID) + 1) else m !! k.
Proof.
  unfold vote. destruct (decide (k = boxID)) as [->|Hne].
  - destruct (m !! boxID); rewrite lookup_insert_eq; reflexivity.
  - destruct (m !! boxID); rewrite lookup_insert_ne by congruence; reflexivity.
Qed.

(** The votes of one current box: its entry grows by the number of voting
    matches, the other entries are left alone. *)
Lemma lookup_fold_votes (f : DMatch.t -> bool) (boxID k : Z)
    (matches : list DMatch.t) :
  forall m : gmap Z Z,
    fold_left (fun m match_ => if f match_ then vote boxID m else m) matches m
      !! k
    = if decide (k = boxID)
      then addVotes (m !! boxID) (length (List.filter f matches))
      else m !! k.
Proof.
  induction matches as [|a ms IH]; intros m; simpl.
  - destruct (decide (k = boxID)) as [->|]; reflexivity.
  - rewrite IH. destruct (decide (k = boxID)) as [->|Hne].
    + destruct (f a); [|reflexivity]. simpl length.
      rewrite lookup_vote, decide_True by reflexivity.
      unfold addVotes. simpl.
      destruct (length (List.filter f ms)) as [|n]; simpl; f_equal; lia.
    + destruct (f a); [|reflexivity].
      rewrite lookup_vote, decide_False by exact Hne. reflexivity.
Qed.

Lemma lookup_tally_other (matches : list DMatch.t)
    (prevFrame currFrame : DataFrame.t) (prevBox : BoundingBox.t)
    (boxes : list BoundingBox.t) (k : Z) :
  k ∉ BoundingBox.boxID <$> boxes ->
  forall m : gmap Z Z,
    fold_left
      (fun m currBox =>
         fold_left
           (fun m match_ =>
              if castsVote prevFrame currFrame prevBox currBox match_
              then vote (BoundingBox.boxID currBox) m else m)
           matches m)
      boxes m !! k
    = m !! k.
Proof.
  induction boxes as [|b bs IH]; intros Hk m; simpl; [reflexivity|].
  rewrite fmap_cons in Hk. apply not_elem_of_cons in Hk as [Hkb Hk].
  rewrite (IH Hk).
  rewrite (lookup_fold_votes (castsVote prevFrame currFrame prevBox b)).
  rewrite decide_False by exact Hkb. reflexivity.
Qed.

Lemma lookup_tally_box (matches : list DMatch.t)
    (prevFrame currFrame : DataFrame.t) (prevBox : BoundingBox.t)
    (boxes : list BoundingBox.t) (currBox : BoundingBox.t) :
  NoDup (BoundingBox.boxID <$> boxes) ->
  currBox ∈ boxes ->
  forall m : gmap Z Z,
    fold_left
      (fun m currBox =>
         fold_left
           (fun m match_ =>
              if castsVote prevFrame currFrame prevBox currBox match_
              then vote (BoundingBox.boxID currBox) m else m)
           matches m)
      boxes m !! BoundingBox.boxID currBox
    = addVotes (m !! BoundingBox.boxID currBox)
        (voteCount matches prevFrame currFrame prevBox currBox).
Proof.
  induction boxes as [|b bs IH]; intros Hnd Hin m; [inversion Hin|].
  rewrite fmap_cons in Hnd. apply NoDup_cons in Hnd as [Hb Hnd].
  simpl. apply elem_of_cons in Hin as [->|Hin].
  - rewrite (lookup_tally_other _ _ _ _ bs _ Hb).
    rewrite (lookup_fold_votes (castsVote prevFrame currFrame prevBox b)).
    rewrite decide_True by reflexivity. reflexivity.
  - rewrite (IH Hnd Hin).
    rewrite (lookup_fold_votes (castsVote prevFrame currFrame prevBox b)).
    rewrite decide_False; [reflexivity|].
    intros Heq. apply Hb. rewrite <- Heq.
    apply list_elem_of_fmap. eauto.
Qed.

End VoteFacts.

(** X6.  When the current boxes have distinct IDs and the matches refer to
    existing keypoints, the vote table built for a previous box holds, for
    each current box, the number of matches whose previous keypoint lies in
    the previous box and whose current keypoint lies in that current box; a
    current box with no such match has no entry, and no other ID has one.  A
    match whose current keypoint lies in several current boxes is counted
    for each of them. *)
Theorem votes_count `{V : Vision} (matches : list DMatch.t)
    (prevFrame currFrame : DataFrame.t) (prevBox : BoundingBox.t) :
  Forall (resolves (DataFrame.keypoints prevFrame)
            (DataFrame.keypoints currFrame)) matches ->
  NoDup (BoundingBox.boxID <$> DataFrame.boundingBoxes currFrame) ->
  exists m,
    votes matches prevFrame currFrame prevBox = Ok m /\
    (forall currBox,
       currBox ∈ DataFrame.boundingBoxes currFrame ->
       m !! BoundingBox.boxID currBox
       = addVotes None
           (voteCount matches prevFrame currFrame prevBox currBox)) /\
    (forall k,
       k ∉ BoundingBox.boxID <$> DataFrame.boundingBoxes currFrame ->
       m !! k = None).
Proof.
  intros Hres Hnd. exists (tally matches prevFrame currFrame prevBox).
  split; [apply votes_tally, Hres|]. unfold tally. split.
  - intros currBox Hin.
    rewrite (lookup_tally_box _ _ _ _ _ _ Hnd Hin). reflexivity.
  - intros k Hk. rewrite (lookup_tally_other _ _ _ _ _ _ Hk). reflexivity.
Qed.

Lemma votes_count_witness :
  let prevBox := BoundingBox.mk 1 (Rect.mk 0 0 100 100) [] [] in
  Forall (resolves (DataFrame.keypoints Frames.prevFrame)
            (DataFrame.keypoints Frames.currFrame)) Frames.frameMatches /\
  NoDup (BoundingBox.boxID <$> DataFrame.boundingBoxes Frames.currFrame) /\
  exists m,
    votes (V := Reference.vision) Frames.frameMatches Frames.prevFrame
      Frames.currFrame prevBox = Ok m /\
    m !! 5 = Some 2 /\ m !! 7 = Some 1.
Proof.
  intros prevBox.
  assert (Hres : Forall (resolves (DataFrame.keypoints Frames.prevFrame)
                           (DataFrame.keypoints Frames.currFrame))
                   Frames.frameMatches)
    by (repeat constructor; vm_compute; eauto).
  assert (Hnd : NoDup (BoundingBox.boxID
                         <$> DataFrame.boundingBoxes Frames.currFrame))
    by (apply (bool_decide_unpack _); vm_compute; exact I).
  split; [exact Hres|]. split; [exact Hnd|].
  destruct (votes_count (V := Reference.vision) Frames.frameMatches
              Frames.prevFrame Frames.currFrame prevBox Hres Hnd)
    as (m & Hrun & Hcount & _).
  exists m. split; [exact Hrun|]. split.
  - etransitivity;
      [exact (Hcount (BoundingBox.mk 5 (Rect.mk 0 0 100 100) [] [])
                (list_elem_of_here _ _))
      | vm_compute; reflexivity].
  - etransitivity;
      [exact (Hcount (BoundingBox.mk 7 (Rect.mk 250 250 100 100) [] [])
                (list_elem_of_further _ _ _ (list_elem_of_here _ _)))
      | vm_compute; reflexivity].
Defined.

(** X7.  When every previous box has a vote and the previous boxes have
    distinct IDs, the run completes and the map holds, for each previous
    box, the best match of its vote table; the entries under other keys are
    the ones the map had on entry. *)
Theorem matchBoundingBoxes_entries `{V : Vision} (matches : list DMatch.t)
    (bbBestMatches : gmap Z Z) (prevFrame currFrame : DataFrame.t) :
  Forall (resolves (DataFrame.keypoints prevFrame)
            (DataFrame.keypoints currFrame)) matches ->
  NoDup (BoundingBox.boxID <$> DataFrame.boundingBoxes prevFrame) ->
  (forall prevBox, prevBox ∈ DataFrame.boundingBoxes prevFrame ->
     tally matches prevFrame currFrame prevBox <> ∅) ->
  exists bb',
    matchBoundingBoxes matches bbBestMatches prevFrame currFrame = Ok bb' /\
    (forall prevBox, prevBox ∈ DataFrame.boundingBoxes prevFrame ->
       exists best,
         bestMatch (tally matches prevFrame currFrame prevBox) = Ok best /\
         bb' !! BoundingBox.boxID prevBox = Some best) /\
    (forall k,
       k ∉ BoundingBox.boxID <$> DataFrame.boundingBoxes prevFrame ->
       bb' !! k = bbBestMatches !! k).
Proof.
  intros Hres. unfold matchBoundingBoxes. revert bbBestMatches.
  induction (DataFrame.boundingBoxes prevFrame) as [|b boxes IH];
    intros bb Hnd Hvoted; cbn [for_each].
  - exists bb. split; [reflexivity|]. split; [|reflexivity].
    intros prevBox Hin. inversion Hin.
  - rewrite fmap_cons in Hnd. apply NoDup_cons in Hnd as [Hb Hnd].
    rewrite (votes_tally _ _ _ _ Hres). cbn [mbind outcome_bind].
    destruct (bestMatch_nonempty (tally matches prevFrame currFrame b))
      as (best & Hbest & _); [apply Hvoted; left|].
    rewrite Hbest. cbn [mbind outcome_bind].
    destruct (IH (<[BoundingBox.boxID b := best]> bb) Hnd)
      as (bb' & Hrun & Hboxes & Hother).
    { intros prevBox Hin. apply Hvoted. right. exact Hin. }
    exists bb'. split; [exact Hrun|]. split.
    + intros prevBox Hin. apply elem_of_cons in Hin as [->|Hin].
      * exists best. split; [exact Hbest|].
        rewrite (Hother _ Hb). apply lookup_insert_eq.
      * apply Hboxes, Hin.
    + intros k Hk. rewrite fmap_cons in Hk.
      apply not_elem_of_cons in Hk as [Hkb Hk].
      rewrite (Hother _ Hk). apply lookup_insert_ne. congruence.
Qed.

Lemma matchBoundingBoxes_entries_witness :
  Forall (resolves (DataFrame.keypoints Frames.prevFrame1)
            (DataFrame.keypoints Frames.currFrame)) Frames.frameMatches /\
  NoDup (BoundingBox.boxID <$> DataFrame.boundingBoxes Frames.prevFrame1) /\
  (forall prevBox, prevBox ∈ DataFrame.boundingBoxes Frames.prevFrame1 ->
     tally (V := Reference.vision) Frames.frameMatches Frames.prevFrame1
       Frames.currFrame prevBox <> ∅) /\
  exists bb',
    matchBoundingBoxes (V := Reference.vision) Frames.frameMatches
      {[ 4 := 8 ]} Frames.prevFrame1 Frames.currFrame = Ok bb' /\
    bb' !! 1 = Some 5 /\ bb' !! 4 = Some 8.
Proof.
  assert (Hres : Forall (resolves (DataFrame.keypoints Frames.prevFrame1)
                           (DataFrame.keypoints Frames.currFrame))
                   Frames.frameMatches)
    by (repeat constructor; vm_compute; eauto).
  assert (Hnd : NoDup (BoundingBox.boxID
                         <$> DataFrame.boundingBoxes Frames.prevFrame1))
    by (apply (bool_decide_unpack _); vm_compute; exact I).
  assert (Hvoted : forall prevBox,
            prevBox ∈ DataFrame.boundingBoxes Frames.prevFrame1 ->
            tally (V := Reference.vision) Frames.frameMatches
              Frames.prevFrame1 Frames.currFrame prevBox <> ∅).
  { intros prevBox Hin. apply list_elem_of_singleton in Hin as ->.
    apply (bool_decide_unpack _). vm_compute. exact I. }
  split; [exact Hres|]. split; [exact Hnd|]. split; [exact Hvoted|].
  destruct (matchBoundingBoxes_entries (V := Reference.vision)
              Frames.frameMatches {[ 4 := 8 ]} Frames.prevFrame1
              Frames.currFrame Hres Hnd Hvoted)
    as (bb' & Hrun & Hboxes & Hother).
  exists bb'. split; [exact Hrun|]. split.
  - destruct (Hboxes (BoundingBox.mk 1 (Rect.mk 0 0 100 100) [] []))
      as (best & Hbest & Hlook); [left|].
    vm_compute in Hbest. injection Hbest as <-. exact Hlook.
  - rewrite (Hother 4); [reflexivity|].
    apply (bool_decide_unpack _). vm_compute. exact I.
Defined.

(** ** clusterLidarWithROI: what a run adds to the boxes *)

Lemma totalLidarPoints_step (enc : BoundingBox.t -> bool) (c : bool)
    (p : LidarPoint.t) (boxes : list BoundingBox.t) :
  totalLidarPoints
    (imap (fun (_ : nat) box =>
             if enc box && c then BoundingBox.push_lidarPoint p box else box)
       boxes)
  = (totalLidarPoints boxes
     + (if c then length (List.filter enc boxes) else 0))%nat.
Proof.
  unfold totalLidarPoints.
  induction boxes as [|b bs IH]; [destruct c; reflexivity|].
  change (imap (fun (_ : nat) box =>
                  if enc box && c then BoundingBox.push_lidarPoint p box
                  else box) (b :: bs))
    with ((if enc b && c then BoundingBox.push_lidarPoint p b else b)
          :: imap (fun (_ : nat) box =>
                     if enc box && c then BoundingBox.push_lidarPoint p box
                     else box) bs).
  rewrite !fmap_cons. cbn [sum_list sum_list_with]. 
  unfold sum_list in IH |- *. rewrite IH.
  cbn [List.filter].
  destruct (enc b), c; simpl; rewrite ?length_app; simpl; lia.
Qed.

(** X8.  A run stores a point once when its pixel lies in exactly one
    shrunk rectangle and not at all otherwise: the boxes hold, after the
    run, as many points more as there are such points in the frame. *)
Theorem clusterLidarWithROI_total `{V : Vision}
    (boundingBoxes : list BoundingBox.t) (lidarPoints : list LidarPoint.t)
    (shrinkFactor : double) (P_rect_xx R_rect_xx RT : Mat.t) :
  Forall (shrinks shrinkFactor) boundingBoxes ->
  Forall (projects P_rect_xx R_rect_xx RT) lidarPoints ->
  exists boxes',
    clusterLidarWithROI boundingBoxes lidarPoints shrinkFactor
      P_rect_xx R_rect_xx RT = Ok boxes' /\
    totalLidarPoints boxes'
    = (totalLidarPoints boundingBoxes
       + length (List.filter
                   (uniquelyEnclosed shrinkFactor P_rect_xx R_rect_xx RT
                      boundingBoxes)
                   lidarPoints))%nat.
Proof.
  intros Hsh Hproj. unfold clusterLidarWithROI. rewrite for_range_elements.
  enough (Hcur : forall cur,
    BoundingBox.roi <$> cur = BoundingBox.roi <$> boundingBoxes ->
    exists boxes',
      for_each lidarPoints (associate shrinkFactor P_rect_xx R_rect_xx RT) cur
      = Ok boxes' /\
      totalLidarPoints boxes'
      = (totalLidarPoints cur
         + length (List.filter
                     (uniquelyEnclosed shrinkFactor P_rect_xx R_rect_xx RT
                        boundingBoxes)
                     lidarPoints))%nat)
    by exact (Hcur boundingBoxes eq_refl).
  induction Hproj as [|p ps [pt Hpt] _ IH]; intros cur Hroi;
    cbn [for_each List.filter].
  - exists cur. split; [reflexivity|]. simpl. lia.
  - rewrite (associate_unique shrinkFactor P_rect_xx R_rect_xx RT p pt cur)
      by first [exact Hpt
               | eapply shrinks_roi; [symmetry; exact Hroi|exact Hsh]].
    cbn [mbind outcome_bind].
    edestruct IH as (boxes' & Hrun & Htotal);
      [rewrite roi_imap_push; exact Hroi|].
    exists boxes'. split; [exact Hrun|]. rewrite Htotal.
    rewrite (totalLidarPoints_step (encloses shrinkFactor pt)).
    unfold uniquelyEnclosed at 2. rewrite Hpt.
    rewrite <- (enclosingCount_roi shrinkFactor pt cur boundingBoxes Hroi).
    unfold enclosingCount.
    destruct (Nat.eqb_spec (length (List.filter (encloses shrinkFactor pt) cur)) 1)
      as [->|_]; simpl; lia.
Qed.

Lemma clusterLidarWithROI_total_witness :
  Forall (shrinks Frames.shrinkFactor) Frames.lidarBoxes /\
  Forall (projects (V := Reference.vision) Frames.P0 Frames.I4 Frames.I4)
    Frames.lidarPoints /\
  exists boxes',
    clusterLidarWithROI (V := Reference.vision) Frames.lidarBoxes
      Frames.lidarPoints Frames.shrinkFactor Frames.P0 Frames.I4 Frames.I4
    = Ok boxes' /\
    totalLidarPoints boxes' = 1%nat.
Proof.
  assert (Hsh : Forall (shrinks Frames.shrinkFactor) Frames.lidarBoxes)
    by (repeat constructor; eexists; vm_compute; reflexivity).
  assert (Hproj : Forall (projects (V := Reference.vision)
                            Frames.P0 Frames.I4 Frames.I4) Frames.lidarPoints)
    by (repeat constructor; eexists; vm_compute; reflexivity).
  split; [exact Hsh|]. split; [exact Hproj|].
  destruct (clusterLidarWithROI_total (V := Reference.vision)
              Frames.lidarBoxes Frames.lidarPoints Frames.shrinkFactor
              Frames.P0 Frames.I4 Frames.I4 Hsh Hproj)
    as (boxes' & Hrun & Htotal).
  exists boxes'. split; [exact Hrun|]. rewrite Htotal.
  vm_compute. reflexivity.
Defined.

(** X9.  A run appends to what the boxes hold and clears nothing, and the
    box a point goes to depends on the rectangles only: run twice on the
    same frame, every box ends with the points it is assigned stored
    twice. *)
Theorem clusterLidarWithROI_twice `{V : Vision}
    (boundingBoxes : list BoundingBox.t) (lidarPoints : list LidarPoint.t)
    (shrinkFactor : double) (P_rect_xx R_rect_xx RT : Mat.t) :
  Forall (shrinks shrinkFactor) boundingBoxes ->
  Forall (projects P_rect_xx R_rect_xx RT) lidarPoints ->
  exists boxes1 boxes2,
    clusterLidarWithROI boundingBoxes lidarPoints shrinkFactor
      P_rect_xx R_rect_xx RT = Ok boxes1 /\
    clusterLidarWithROI boxes1 lidarPoints shrinkFactor
      P_rect_xx R_rect_xx RT = Ok boxes2 /\
    forall k box,
      boundingBoxes !! k = Some box ->
      let assigned :=
        List.filter
          (assignedTo shrinkFactor P_rect_xx R_rect_xx RT boundingBoxes k)
          lidarPoints in
      boxes1 !! k = Some (extend box assigned) /\
      boxes2 !! k = Some (extend (extend box assigned) assigned).
Proof.
  intros Hsh Hproj.
  pose proof (associate_all shrinkFactor P_rect_xx R_rect_xx RT boundingBoxes
                lidarPoints Hsh Hproj) as Hall.
  set (step := fun (k : nat) box =>
         extend box
           (List.filter
              (assignedTo shrinkFactor P_rect_xx R_rect_xx RT boundingBoxes k)
              lidarPoints)) in *.
  assert (Hroi : forall cur,
            BoundingBox.roi <$> imap step cur = BoundingBox.roi <$> cur).
  { intros cur. apply list_eq. intros j.
    rewrite !list_lookup_fmap, list_lookup_imap.
    destruct (cur !! j); reflexivity. }
  exists (imap step boundingBoxes), (imap step (imap step boundingBoxes)).
  split; [|split].
  - unfold clusterLidarWithROI. rewrite for_range_elements.
    apply Hall. reflexivity.
  - unfold clusterLidarWithROI. rewrite for_range_elements.
    apply Hall. apply Hroi.
  - intros k box Hk assigned.
    rewrite !list_lookup_imap, Hk. split; reflexivity.
Qed.

Lemma clusterLidarWithROI_twice_witness :
  Forall (shrinks Frames.shrinkFactor) Frames.lidarBoxes /\
  Forall (projects (V := Reference.vision) Frames.P0 Frames.I4 Frames.I4)
    Frames.lidarPoints /\
  exists boxes1 boxes2,
    clusterLidarWithROI (V := Reference.vision) Frames.lidarBoxes
      Frames.lidarPoints Frames.shrinkFactor Frames.P0 Frames.I4 Frames.I4
    = Ok boxes1 /\
    clusterLidarWithROI (V := Reference.vision) boxes1
      Frames.lidarPoints Frames.shrinkFactor Frames.P0 Frames.I4 Frames.I4
    = Ok boxes2 /\
    BoundingBox.lidarPoints <$> boxes2 !! 0%nat
    = Some [LidarPoint.mk 20 20 1 0; LidarPoint.mk 20 20 1 0]%float.
Proof.
  assert (Hsh : Forall (shrinks Frames.shrinkFactor) Frames.lidarBoxes)
    by (repeat constructor; eexists; vm_compute; reflexivity).
  assert (Hproj : Forall (projects (V := Reference.vision)
                            Frames.P0 Frames.I4 Frames.I4) Frames.lidarPoints)
    by (repeat constructor; eexists; vm_compute; reflexivity).
  split; [exact Hsh|]. split; [exact Hproj|].
  destruct (clusterLidarWithROI_twice (V := Reference.vision)
              Frames.lidarBoxes Frames.lidarPoints Frames.shrinkFactor
              Frames.P0 Frames.I4 Frames.I4 Hsh Hproj)
    as (boxes1 & boxes2 & Hrun1 & Hrun2 & Hboxes).
  exists boxes1, boxes2. split; [exact Hrun1|]. split; [exact Hrun2|].
  destruct (Hboxes 0%nat _ eq_refl) as [_ H2]. rewrite H2.
  vm_compute. reflexivity.
Defined.

(** ** clustering: the points of the clusters *)

Lemma gather_indices {A} (cloud : list A) (indices : list Z) (acc : list A) :
  Forall (fun i => 0 <= i < Z.of_nat (length cloud)) indices ->
  exists qs,
    for_each indices
      (fun index clusters => p ← deref cloud index; Ok (clusters ++ [p])) acc
    = Ok (acc ++ qs) /\
    Forall2 (fun i q => cloud !! Z.to_nat i = Some q) indices qs.
Proof.
  intros Hvalid. revert acc.
  induction Hvalid as [|i is_ Hi _ IH]; intros acc; cbn [for_each].
  - exists []. rewrite app_nil_r. split; [reflexivity|constructor].
  - destruct (lookup_lt_is_Some_2 cloud (Z.to_nat i)) as [q Hq]; [lia|].
    replace (deref cloud i) with (deref cloud (Z.of_nat (Z.to_nat i)))
      by (rewrite Z2Nat.id by lia; reflexivity).
    rewrite (deref_lookup _ _ _ Hq). cbn [mbind outcome_bind].
    destruct (IH (acc ++ [q])) as (qs & Hrun & Hqs).
    exists (q :: qs). rewrite Hrun, <- app_assoc.
    split; [reflexivity|]. constructor; assumption.
Qed.

Lemma gather_clusters {A} (cloud : list A) (clusterIndices : list (list Z))
    (acc : list A) :
  Forall (Forall (fun i => 0 <= i < Z.of_nat (length cloud))) clusterIndices ->
  exists qs,
    for_each clusterIndices
      (fun getIndices clusters =>
         for_each getIndices
           (fun index clusters => p ← deref cloud index; Ok (clusters ++ [p]))
           clusters)
      acc
    = Ok (acc ++ qs) /\
    Forall2 (fun i q => cloud !! Z.to_nat i = Some q)
      (concat clusterIndices) qs.
Proof.
  intros Hvalid. revert acc.
  induction Hvalid as [|c cs Hc _ IH]; intros acc; cbn [for_each concat].
  - exists []. rewrite app_nil_r. split; [reflexivity|constructor].
  - destruct (gather_indices cloud c acc Hc) as (qs1 & Hrun1 & Hqs1).
    rewrite Hrun1. cbn [mbind outcome_bind].
    destruct (IH (acc ++ qs1)) as (qs2 & Hrun2 & Hqs2).
    exists (qs1 ++ qs2). rewrite Hrun2, <- app_assoc.
    split; [reflexivity|]. apply Forall2_app; assumption.
Qed.

(** X10.  When every index the cluster extraction returns is an index of
    the cloud, clustering returns the points of the clusters one after the
    other, cluster by cluster and in the order of the indices: each returned
    point is the input point at that index with its coordinates rounded to
    binary32, so the result has as many points as the clusters have
    indices and every one of them comes from the frame. *)
Theorem clustering_gathers `{V : Vision} (lidarPoints : list LidarPoint.t)
    (clusterTolerance : double) (minSize maxSize : Z) :
  let clusterIndices :=
    extract (toXYZ <$> lidarPoints) clusterTolerance minSize maxSize in
  Forall (Forall (fun i => 0 <= i < Z.of_nat (length lidarPoints)))
    clusterIndices ->
  exists out,
    clustering lidarPoints clusterTolerance minSize maxSize = Ok out /\
    Forall2 (fun i q => toXYZ <$> lidarPoints !! Z.to_nat i = Some q)
      (concat clusterIndices) out /\
    length out = length (concat clusterIndices) /\
    Forall (fun q => exists p, p ∈ lidarPoints /\ q = toXYZ p) out.
Proof.
  intros clusterIndices Hvalid.
  assert (Hrun : exists out,
            clustering lidarPoints clusterTolerance minSize maxSize = Ok out /\
            Forall2 (fun i q => (toXYZ <$> lidarPoints) !! Z.to_nat i = Some q)
              (concat clusterIndices) out).
  { unfold clustering.
    change (map (fun p => PointXYZ.mk (fl32 (LidarPoint.x p))
                            (fl32 (LidarPoint.y p)) (fl32 (LidarPoint.z p)))
              lidarPoints)
      with (toXYZ <$> lidarPoints).
    fold clusterIndices.
    destruct (Z.eqb_spec (Z.of_nat (length clusterIndices)) 0) as [Hnil|_].
    - destruct clusterIndices; [|simpl in Hnil; lia].
      exists []. split; [reflexivity|constructor].
    - destruct (gather_clusters (toXYZ <$> lidarPoints) clusterIndices [])
        as (qs & Hqs & Hall).
      + rewrite length_fmap. exact Hvalid.
      + exists qs. split; [exact Hqs|exact Hall]. }
  destruct Hrun as (out & Hout & Hall).
  exists out. split; [exact Hout|]. split.
  - eapply Forall2_impl; [exact Hall|]. intros i q Hq.
    rewrite <- list_lookup_fmap. exact Hq.
  - split; [symmetry; exact (Forall2_length _ _ _ Hall)|].
    clear Hout. induction Hall as [|i q is_ qs Hq _ IH]; constructor; [|exact IH].
    rewrite list_lookup_fmap in Hq.
    destruct (lidarPoints !! Z.to_nat i) as [p|] eqn:Hp; [|discriminate].
    injection Hq as <-. exists p. split; [|reflexivity].
    eapply list_elem_of_lookup_2. exact Hp.
Qed.

Lemma clustering_gathers_witness :
  Forall (Forall (fun i => 0 <= i < Z.of_nat (length Frames.prevCloud)))
    (extract (Vision := Reference.vision) (toXYZ <$> Frames.prevCloud)
       (fl32 0.05) 30 25000) /\
  exists out,
    clustering (V := Reference.vision) Frames.prevCloud (fl32 0.05) 30 25000
    = Ok out /\
    length out = 30%nat.
Proof.
  assert (Hvalid :
    Forall (Forall (fun i => 0 <= i < Z.of_nat (length Frames.prevCloud)))
      (extract (Vision := Reference.vision) (toXYZ <$> Frames.prevCloud)
         (fl32 0.05) 30 25000)).
  { let v := eval vm_compute in
        (extract (Vision := Reference.vision) (toXYZ <$> Frames.prevCloud)
           (fl32 0.05) 30 25000) in
    change (extract (Vision := Reference.vision) (toXYZ <$> Frames.prevCloud)
              (fl32 0.05) 30 25000) with v.
    change (length Frames.prevCloud) with 30%nat.
    repeat (apply List.Forall_cons; [|try apply List.Forall_nil]);
      try apply List.Forall_nil; lia. }
  split; [exact Hvalid|].
  destruct (clustering_gathers (V := Reference.vision) Frames.prevCloud
              (fl32 0.05) 30 25000 Hvalid) as (out & Hrun & _ & Hlen & _).
  exists out. split; [exact Hrun|]. rewrite Hlen.
  vm_compute. reflexivity.
Defined.

(** ** computeTTCLidar: no approach *)

Lemma finite_positive (x : double) :
  (0 <? x)%float = true -> (x <? infinity)%float = true ->
  exists m e, Prim2SF x = S754_finite false m e.
Proof.
  rewrite !FloatAxioms.ltb_spec.
  change (Prim2SF 0) with (S754_zero false).
  change (Prim2SF infinity) with (S754_infinity false).
  destruct (Prim2SF x) as [s|s| |s m e]; try destruct s; try discriminate;
    eauto.
Qed.

Lemma sub_self (x : double) (m : positive) (e : Z) :
  Prim2SF x = S754_finite false m e -> (x - x)%float = 0%float.
Proof.
  intros H. apply Prim2SF_inj. rewrite sub_spec, H.
  change (Prim2SF 0) with (S754_zero false).
  unfold SF64sub, SFsub.
  cbn [negb cond_Zopp]. rewrite Z.min_id.
  unfold shl_align. rewrite Z.sub_diag. cbn [fst].
  reflexivity.
Qed.

Lemma div_zero_positive (x : double) (m : positive) (e : Z) :
  Prim2SF x = S754_finite false m e -> (x / 0)%float = infinity.
Proof. intros H. apply Prim2SF_inj. rewrite div_spec, H. reflexivity. Qed.

Lemma zero_div_positive (x : double) (m : positive) (e : Z) :
  Prim2SF x = S754_finite false m e -> (0 / x)%float = 0%float.
Proof. intros H. apply Prim2SF_inj. rewrite div_spec, H. reflexivity. Qed.

Lemma leb_ltb_trans (x y z : double) :
  (x <=? y)%float = true -> (y <? z)%float = true -> (x <? z)%float = true.
Proof.
  intros (k1 & k2 & Hx & Hy & H12)%leb_keys (k2' & k3 & Hy' & Hz & H23)%ltb_keys.
  rewrite Hy in Hy'. injection Hy' as <-.
  apply ltb_keys. exists k1, k3. split; [exact Hx|]. split; [exact Hz|].
  destruct H12 as [H12| ->]; [exact (lexLt_trans _ _ _ H12 H23)|exact H23].
Qed.

(** The minimum the loops compute never exceeds the 1e9 they start from:
    when positive it is a finite number. *)
Lemma minForward_finite (xs : list double) :
  (0 <? minForward xs)%float = true ->
  exists m e, Prim2SF (minForward xs) = S754_finite false m e.
Proof.
  intros Hpos. apply finite_positive; [exact Hpos|].
  assert (H9 : ordered 1e9%float) by (vm_compute; reflexivity).
  pose proof (fold_fmin_below_start xs 1e9%float H9) as Hle.
  fold (minForward xs) in Hle.
  apply (leb_ltb_trans _ 1e9%float); [|vm_compute; reflexivity].
  apply ltb_false_leb; [exact H9| |exact Hle].
  apply (proj2 (ltb_ordered _ _ Hpos)).
Qed.

Lemma ttcFromClusters_equal_minima `{V : Vision}
    (clusterPrevPts clusterCurrPts : list PointXYZ.t) (frameRate : double) :
  minForward (PointXYZ.x <$> inLane clusterPrevPts)
  = minForward (PointXYZ.x <$> inLane clusterCurrPts) ->
  (0 <? minForward (PointXYZ.x <$> inLane clusterCurrPts))%float = true ->
  (0 <? 1 / frameRate)%float = true ->
  (1 / frameRate <? infinity)%float = true ->
  ttcFromClusters clusterPrevPts clusterCurrPts frameRate = infinity.
Proof.
  intros Heq Hpos Hdt0 Hdt1. unfold ttcFromClusters.
  rewrite !closestInLane_minForward.
  fold (minForward (PointXYZ.x <$> inLane clusterPrevPts)).
  fold (minForward (PointXYZ.x <$> inLane clusterCurrPts)).
  rewrite Heq.
  destruct (minForward_finite _ Hpos) as (m & e & Hm).
  destruct (finite_positive _ Hdt0 Hdt1) as (md & ed & Hd).
  rewrite (sub_self _ _ _ Hm), (zero_div_positive _ _ _ Hd).
  exact (div_zero_positive _ _ _ Hm).
Qed.

(** X11.  When the closest in-lane point is as far in the current frame as
    in the previous one, at a positive distance, the estimator divides by a
    zero speed and returns plus infinity, for every frame rate whose period
    1 / frameRate is positive and finite. *)
Theorem computeTTCLidar_stationary `{V : Vision}
    (lidarPointsPrev lidarPointsCurr : list LidarPoint.t)
    (clusterPrevPts clusterCurrPts : list PointXYZ.t) (frameRate : double) :
  clustering lidarPointsPrev (fl32 0.05) 30 25000 = Ok clusterPrevPts ->
  clustering lidarPointsCurr (fl32 0.05) 30 25000 = Ok clusterCurrPts ->
  minForward (PointXYZ.x <$> inLane clusterPrevPts)
  = minForward (PointXYZ.x <$> inLane clusterCurrPts) ->
  (0 <? minForward (PointXYZ.x <$> inLane clusterCurrPts))%float = true ->
  (0 <? 1 / frameRate)%float = true ->
  (1 / frameRate <? infinity)%float = true ->
  computeTTCLidar lidarPointsPrev lidarPointsCurr frameRate = Ok infinity.
Proof.
  intros Hprev Hcurr Heq Hpos Hdt0 Hdt1.
  unfold computeTTCLidar. rewrite Hprev, Hcurr. cbn [mbind outcome_bind].
  f_equal. apply ttcFromClusters_equal_minima; assumption.
Qed.

Lemma computeTTCLidar_stationary_witness :
  computeTTCLidar (V := Reference.vision) Frames.prevCloud Frames.prevCloud 10
  = Ok infinity.
Proof.
  destruct (clustering (V := Reference.vision) Frames.prevCloud
              (fl32 0.05) 30 25000) as [pts|f] eqn:Hpts;
    [|vm_compute in Hpts; discriminate Hpts].
  apply (computeTTCLidar_stationary (V := Reference.vision)
           Frames.prevCloud Frames.prevCloud pts pts 10 Hpts Hpts eq_refl).
  - assert (Hrun : clustering (V := Reference.vision) Frames.prevCloud
                     (fl32 0.05) 30 25000 = Ok pts) by exact Hpts.
    vm_compute in Hrun. injection Hrun as <-. vm_compute. reflexivity.
  - vm_compute. reflexivity.
  - vm_compute. reflexivity.
Defined.

(** X12.  When no clustered point of either frame lies within 2.0 of the
    centreline, both minima stay at the 1e9 they start from and the
    estimator returns plus infinity: the empty lane is not reported as an
    error. *)
Theorem computeTTCLidar_empty_lane `{V : Vision}
    (lidarPointsPrev lidarPointsCurr : list LidarPoint.t)
    (clusterPrevPts clusterCurrPts : list PointXYZ.t) (frameRate : double) :
  clustering lidarPointsPrev (fl32 0.05) 30 25000 = Ok clusterPrevPts ->
  clustering lidarPointsCurr (fl32 0.05) 30 25000 = Ok clusterCurrPts ->
  inLane clusterPrevPts = [] ->
  inLane clusterCurrPts = [] ->
  (0 <? 1 / frameRate)%float = true ->
  (1 / frameRate <? infinity)%float = true ->
  computeTTCLidar lidarPointsPrev lidarPointsCurr frameRate = Ok infinity.
Proof.
  intros Hprev Hcurr Hp Hc Hdt0 Hdt1.
  unfold computeTTCLidar. rewrite Hprev, Hcurr. cbn [mbind outcome_bind].
  f_equal. apply ttcFromClusters_equal_minima; try assumption.
  - rewrite Hp, Hc. reflexivity.
  - rewrite Hc. vm_compute. reflexivity.
Qed.

Lemma computeTTCLidar_empty_lane_witness :
  computeTTCLidar (V := Reference.vision) Frames.offLane [] 10 = Ok infinity.
Proof.
  destruct (clustering (V := Reference.vision) Frames.offLane
              (fl32 0.05) 30 25000) as [pts|f] eqn:Hpts;
    [|vm_compute in Hpts; discriminate Hpts].
  apply (computeTTCLidar_empty_lane (V := Reference.vision)
           Frames.offLane [] pts [] 10 Hpts).
  - vm_compute. reflexivity.
  - assert (Hrun : clustering (V := Reference.vision) Frames.offLane
                     (fl32 0.05) 30 25000 = Ok pts) by exact Hpts.
    vm_compute in Hrun. injection Hrun as <-. vm_compute. reflexivity.
  - reflexivity.
  - vm_compute. reflexivity.
  - vm_compute. reflexivity.
Defined.

(** ** project: a zero depth term *)





